(** * Count-min sketch (primer/count_min_sketch.{h,cpp})

    A shallow embedding of [bustub::CountMinSketch<KeyType>] and the
    properties of its operations.

    Objects live in a store indexed by their address, because the row
    hashers are lambdas that capture [this]: a hasher reads [width_] of
    the object it was created by each time it is called.  Counters and
    dimensions are [uint32_t], modelled as [N] with the wrap-around
    written out.  [std::hash<KeyType>] and [HashUtil::CombineHashes]
    (common/util/hash_util.h) and [std::sort] are parameters. *)

From stdpp Require Import base numbers option list sorting gmap.

(** ** Machine integers *)

Definition UINT32_MAX : N := 4294967295.

(** Conversion to [uint32_t]. *)
Definition wrap32 (n : N) : N := n mod 4294967296.

(** [constexpr static size_t SEED_BASE = 15445;] *)
Definition SEED_BASE : N := 15445.

(** ** Objects and the store *)

Abbreviation addr := positive (only parsing).

(** The closure [[seed, this](const KeyType &item) -> size_t {...}]
    returned by [HashFunction(seed)]: its two captures. *)
Record Hasher : Type := MkHasher {
  seed : N;
  captured_this : addr
}.

Record CountMinSketch : Type := MkSketch {
  width_ : N;
  depth_ : N;
  hash_functions_ : list Hasher;
  count_matrix_ : list (list N)
}.

#[global] Instance Hasher_eq_dec : EqDecision Hasher.
Proof. solve_decision. Defined.

#[global] Instance CountMinSketch_eq_dec : EqDecision CountMinSketch.
Proof. solve_decision. Defined.

Abbreviation heap := (gmap positive CountMinSketch) (only parsing).

Definition set_count_matrix (o : CountMinSketch) (m : list (list N)) : CountMinSketch :=
  {| width_ := width_ o; depth_ := depth_ o;
     hash_functions_ := hash_functions_ o; count_matrix_ := m |}.

(** ** Outcomes

    A call returns, throws (the store is the one at the [throw]), or has
    undefined behaviour: an index past the end of a vector, a remainder
    by zero, a call through a pointer to an object that is not there. *)

Inductive exception : Type := invalid_argument.

Inductive fault : Type := OutOfRange | DivideByZero | Dangling.

Inductive outcome (A : Type) : Type :=
  | Ok (a : A)
  | Throw (e : exception) (st : gmap positive CountMinSketch)
  | Undefined (f : fault).

Arguments Ok {A} a.
Arguments Throw {A} e st.
Arguments Undefined {A} f.

#[global] Instance outcome_ret : MRet outcome := λ A a, Ok a.

#[global] Instance outcome_bind : MBind outcome := λ A B k m,
  match m with
  | Ok a => k a
  | Throw e st => Throw e st
  | Undefined f => Undefined f
  end.

(** [v[i]] on a [std::vector]. *)
Definition at_ {A} (v : list A) (i : nat) : outcome A :=
  match v !! i with
  | Some x => Ok x
  | None => Undefined OutOfRange
  end.

(** [*p] for [p] the address of a sketch. *)
Definition deref (st : heap) (p : addr) : outcome CountMinSketch :=
  match st !! p with
  | Some o => Ok o
  | None => Undefined Dangling
  end.

(** [for (x : l) body], threading the state. *)
Fixpoint for_each {A S} (body : A → S → outcome S) (l : list A) (s : S) : outcome S :=
  match l with
  | [] => Ok s
  | x :: l' => s' ← body x s; for_each body l' s'
  end.

(** [for (i = 0; i < n; i++) body]. *)
Definition for_range {S} (n : N) (body : nat → S → outcome S) (s : S) : outcome S :=
  for_each body (seq 0 (N.to_nat n)) s.

(** [HashFunction(seed)] called on the object at [this]: the closure
    that captures both.  Its body is [call] below. *)
Definition HashFunction (this : addr) (seed : N) : Hasher := MkHasher seed this.

(** [for (size_t i = 0; i < depth_; i++)
      hash_functions_.push_back(this->HashFunction(i));] *)
Definition push_hashers (this : addr) (depth : N) (hs : list Hasher) : list Hasher :=
  foldl (λ hs i, hs ++ [HashFunction this (N.of_nat i)]) hs (seq 0 (N.to_nat depth)).

Definition min_option (best : option N) (c : N) : option N :=
  Some (match best with Some b => N.min b c | None => c end).

Section CountMinSketch.

Context {KeyType : Type}.

(** [std::hash<KeyType>{}] and [bustub::HashUtil::CombineHashes], both
    with values in [size_t]. *)
Variable std_hash : KeyType → N.
Variable CombineHashes : N → N → N.

(** Calling a row hasher: [CombineHashes(h1, h2) % width_], with
    [width_] read through the captured [this]. *)
Definition call (st : heap) (h : Hasher) (item : KeyType) : outcome N :=
  o ← deref st (captured_this h);
  let h1 := std_hash item in
  let h2 := CombineHashes (seed h) SEED_BASE in
  if (width_ o =? 0)%N then Undefined DivideByZero
  else Ok (CombineHashes h1 h2 mod width_ o)%N.

(** [CountMinSketch(uint32_t width, uint32_t depth)], building the
    object at address [this]. *)
Definition Construct (st : heap) (this : addr) (width depth : N) : outcome heap :=
  if (width =? 0)%N || (depth =? 0)%N then Throw invalid_argument st
  else
    Ok (<[this := {| width_ := width; depth_ := depth;
                     count_matrix_ := replicate (N.to_nat depth) (replicate (N.to_nat width) 0%N);
                     hash_functions_ := push_hashers this depth [] |}]> st).

(** [CountMinSketch(CountMinSketch &&other)], building the object at
    address [this].  The moved-from vector is left empty. *)
Definition MoveConstruct (st : heap) (this other : addr) : outcome heap :=
  o ← deref st other;
  let width := width_ o in
  let depth := depth_ o in
  let matrix := resize (N.to_nat width) 0%N <$> count_matrix_ o in
  let hashers := push_hashers this depth [] in
  let st := <[this := {| width_ := width; depth_ := depth;
                         hash_functions_ := hashers; count_matrix_ := matrix |}]> st in
  Ok (<[other := {| width_ := 0; depth_ := 0;
                    hash_functions_ := hash_functions_ o; count_matrix_ := [] |}]> st).

(** [operator=(CountMinSketch &&other)]. *)
Definition MoveAssign (st : heap) (this other : addr) : outcome heap :=
  if decide (this = other) then Ok st
  else
    _ ← deref st this;
    o ← deref st other;
    let width := width_ o in
    let depth := depth_ o in
    let matrix := resize (N.to_nat width) 0%N <$> count_matrix_ o in
    let hashers := push_hashers this depth [] in
    let st := <[this := {| width_ := width; depth_ := depth;
                           hash_functions_ := hashers; count_matrix_ := matrix |}]> st in
    Ok (<[other := {| width_ := 0; depth_ := 0;
                      hash_functions_ := hash_functions_ o; count_matrix_ := [] |}]> st).

(** One iteration of the loop of [Insert]. *)
Definition Insert_row (this : addr) (item : KeyType) (i : nat) (st : heap) : outcome heap :=
  o ← deref st this;
  h ← at_ (hash_functions_ o) i;
  hash ← call st h item;
  let index := N.to_nat (wrap32 hash) in
  row ← at_ (count_matrix_ o) i;
  c ← at_ row index;
  Ok (<[this := set_count_matrix o (<[i := <[index := wrap32 (c + 1)]> row]> (count_matrix_ o))]> st).

Definition Insert (st : heap) (this : addr) (item : KeyType) : outcome heap :=
  o ← deref st this;
  for_range (depth_ o) (Insert_row this item) st.

(** [count_matrix_[i][j] += other.count_matrix_[i][j]]. *)
Definition Merge_cell (this other : addr) (i j : nat) (st : heap) : outcome heap :=
  t ← deref st this;
  o ← deref st other;
  row ← at_ (count_matrix_ t) i;
  a ← at_ row j;
  orow ← at_ (count_matrix_ o) i;
  b ← at_ orow j;
  Ok (<[this := set_count_matrix t (<[i := <[j := wrap32 (a + b)]> row]> (count_matrix_ t))]> st).

Definition Merge (st : heap) (this other : addr) : outcome heap :=
  t ← deref st this;
  o ← deref st other;
  if negb (width_ t =? width_ o)%N || negb (depth_ t =? depth_ o)%N
  then Throw invalid_argument st
  else
    for_range (depth_ t) (λ i, for_range (width_ t) (λ j, Merge_cell this other i j)) st.

(** The loop of [Count], over the rows still to visit. *)
Fixpoint Count_loop (st : heap) (o : CountMinSketch) (item : KeyType)
    (rows : list nat) (min_count : N) : outcome N :=
  match rows with
  | [] => Ok (if (min_count =? UINT32_MAX)%N then 0%N else min_count)
  | i :: rows =>
      row ← at_ (count_matrix_ o) i;
      if negb (N.of_nat (length row) =? width_ o)%N then
        Ok (match row with [] => 0%N | c :: _ => c end)
      else
        h ← at_ (hash_functions_ o) i;
        hash_index ← call st h item;
        if (width_ o <=? hash_index)%N then Count_loop st o item rows min_count
        else
          c ← at_ row (N.to_nat hash_index);
          Count_loop st o item rows (N.min min_count c)
  end.

Definition Count (st : heap) (this : addr) (item : KeyType) : outcome N :=
  o ← deref st this;
  if bool_decide (count_matrix_ o = [])
     || negb (N.of_nat (length (count_matrix_ o)) =? depth_ o)%N
     || negb (N.of_nat (length (hash_functions_ o)) =? depth_ o)%N
  then Ok 0%N
  else Count_loop st o item (seq 0 (N.to_nat (depth_ o))) UINT32_MAX.

(** [count_matrix_[i][j] = 0]. *)
Definition Clear_cell (this : addr) (i j : nat) (st : heap) : outcome heap :=
  o ← deref st this;
  row ← at_ (count_matrix_ o) i;
  _ ← at_ row j;
  Ok (<[this := set_count_matrix o (<[i := <[j := 0%N]> row]> (count_matrix_ o))]> st).

Definition Clear (st : heap) (this : addr) : outcome heap :=
  o ← deref st this;
  for_range (depth_ o) (λ i, for_range (width_ o) (λ j, Clear_cell this i j)) st.

(** The comparator of [TopK]: [a.second > b.second]. *)
Definition by_count_desc (a b : KeyType * N) : bool := (b.2 <? a.2)%N.

(** [std::sort(first, last, comp)]. *)
Variable std_sort : (KeyType * N → KeyType * N → bool) → list (KeyType * N) → list (KeyType * N).

(** The loop of [TopK]: [top_k.emplace_back(candidate, Count(candidate))]. *)
Fixpoint TopK_loop (st : heap) (this : addr) (candidates : list KeyType)
    (top_k : list (KeyType * N)) : outcome (list (KeyType * N)) :=
  match candidates with
  | [] => Ok top_k
  | candidate :: candidates =>
      count ← Count st this candidate;
      TopK_loop st this candidates (top_k ++ [(candidate, count)])
  end.

Definition TopK (st : heap) (this : addr) (k : N) (candidates : list KeyType)
    : outcome (list (KeyType * N)) :=
  if (k =? 0)%N then Ok []
  else
    top_k ← TopK_loop st this candidates [];
    let top_k := std_sort by_count_desc top_k in
    Ok (take (N.to_nat (N.min k (N.of_nat (length top_k)))) top_k).

(** [for (x : items) Insert(x)]. *)
Definition InsertAll (st : heap) (this : addr) (items : list KeyType) : outcome heap :=
  for_each (λ item st, Insert st this item) items st.

(** ** States of an object *)

(** The invariant of the specification, for the object at [this]: as
    many rows and hashers as [depth_], rows of [width_] counters, and
    every hasher returns a column below [width_]. *)
Definition structural_invariant (st : heap) (this : addr) : Prop :=
  ∃ o, st !! this = Some o ∧
    N.of_nat (length (count_matrix_ o)) = depth_ o ∧
    Forall (λ row, N.of_nat (length row) = width_ o) (count_matrix_ o) ∧
    N.of_nat (length (hash_functions_ o)) = depth_ o ∧
    ∀ h item, h ∈ hash_functions_ o → ∃ c, call st h item = Ok c ∧ (c < width_ o)%N.

(** A sketch as the constructors leave it at address [this]: positive
    dimensions that fit [uint32_t], a matrix of that shape, and one
    hasher per row that captures [this] itself. *)
Definition usable (this : addr) (o : CountMinSketch) : Prop :=
  (0 < width_ o < 4294967296)%N ∧ (0 < depth_ o)%N ∧
  N.of_nat (length (count_matrix_ o)) = depth_ o ∧
  Forall (λ row, N.of_nat (length row) = width_ o) (count_matrix_ o) ∧
  hash_functions_ o = push_hashers this (depth_ o) [].

(** ** Pure descriptions of what the loops compute *)

(** The column of [item] in row [i] of a sketch of the given width. *)
Definition column (width : N) (i : nat) (item : KeyType) : N :=
  (CombineHashes (std_hash item) (CombineHashes (N.of_nat i) SEED_BASE) mod width)%N.

(** What the hasher stored for row [i] returns on [item] (0 where there
    is no hasher or the call has no value). *)
Definition hashed (st : heap) (o : CountMinSketch) (item : KeyType) (i : nat) : N :=
  match hash_functions_ o !! i with
  | Some h => match call st h item with Ok c => c | _ => 0%N end
  | None => 0%N
  end.

(** Row [i] has the width of the sketch and its hasher returns on [item]. *)
Definition row_ready (st : heap) (o : CountMinSketch) (item : KeyType) (i : nat) : Prop :=
  ∃ row h c, count_matrix_ o !! i = Some row ∧ N.of_nat (length row) = width_ o ∧
             hash_functions_ o !! i = Some h ∧ call st h item = Ok c.

Definition cell (m : list (list N)) (i j : nat) : N :=
  default 0%N (m !! i ≫= λ row, row !! j).

(** What row [i] contributes to the minimum of [Count]: nothing when
    its column is not below the width. *)
Definition contribution (width : N) (m : list (list N)) (col : nat → N) (i : nat) : option N :=
  if (width <=? col i)%N then None else Some (cell m i (N.to_nat (col i))).

Definition finish (min_count : N) : N :=
  if (min_count =? UINT32_MAX)%N then 0%N else min_count.

Definition estimate (st : heap) (o : CountMinSketch) (item : KeyType) : N :=
  finish (foldl N.min UINT32_MAX
            (omap (contribution (width_ o) (count_matrix_ o) (hashed st o item))
                  (seq 0 (N.to_nat (depth_ o))))).

Definition bump (j : nat) (row : list N) : list N :=
  <[j := wrap32 (default 0%N (row !! j) + 1)]> row.

Definition bump_rows (col : nat → nat) (m : list (list N)) : list (list N) :=
  imap (λ i row, bump (col i) row) m.

(** The counter of [item] in row [i], for a sketch whose row hashers
    are its own. *)
Definition hit (width : N) (m : list (list N)) (item : KeyType) (i : nat) : N :=
  cell m i (N.to_nat (column width i item)).

(** The matrix after inserting [items] one after the other. *)
Definition insert_all (width : N) (items : list KeyType) (m : list (list N)) : list (list N) :=
  foldl (λ m item, bump_rows (λ i, N.to_nat (column width i item)) m) m items.

Definition in_matrix (m : list (list N)) (i j : nat) : Prop :=
  ∃ row, m !! i = Some row ∧ j < length row.

Definition add_rows (m1 m2 : list (list N)) : list (list N) :=
  zip_with (zip_with (λ a b, wrap32 (a + b))) m1 m2.

Definition zeros (width depth : N) : list (list N) :=
  replicate (N.to_nat depth) (replicate (N.to_nat width) 0%N).

(** How many of [items] fall in column [j] of row [i]. *)
Definition hits (width : N) (i j : nat) (items : list KeyType) : N :=
  N.of_nat (length (filter (λ y, N.to_nat (column width i y) = j) items)).

(** The number of times [x] was inserted by [items]. *)
Definition occurrences `{EqDecision KeyType} (x : KeyType) (items : list KeyType) : N :=
  N.of_nat (length (filter (λ y, y = x) items)).

(** ** The estimate as the specification words it

    Following the specification's words for [Count] on an inconsistent
    structure: a malformed row (wrong length, or a column outside the
    row) is skipped, and the answer is 0 if no row is usable. *)
Fixpoint Count_skipping_loop (st : heap) (o : CountMinSketch) (item : KeyType)
    (rows : list nat) (best : option N) : outcome N :=
  match rows with
  | [] => Ok (default 0%N best)
  | i :: rows =>
      row ← at_ (count_matrix_ o) i;
      if negb (N.of_nat (length row) =? width_ o)%N then
        Count_skipping_loop st o item rows best
      else
        h ← at_ (hash_functions_ o) i;
        hash_index ← call st h item;
        if (width_ o <=? hash_index)%N then Count_skipping_loop st o item rows best
        else
          c ← at_ row (N.to_nat hash_index);
          Count_skipping_loop st o item rows (min_option best c)
  end.

Definition Count_skipping (st : heap) (this : addr) (item : KeyType) : outcome N :=
  o ← deref st this;
  if negb (N.of_nat (length (count_matrix_ o)) =? depth_ o)%N
     || negb (N.of_nat (length (hash_functions_ o)) =? depth_ o)%N
  then Ok 0%N
  else Count_skipping_loop st o item (seq 0 (N.to_nat (depth_ o))) None.

End CountMinSketch.

(** The two objects a move from [o] to address [this] leaves: the new
    owner, and what remains of [o]. *)
Definition moved_to (this : addr) (o : CountMinSketch) : CountMinSketch :=
  {| width_ := width_ o; depth_ := depth_ o;
     hash_functions_ := push_hashers this (depth_ o) [];
     count_matrix_ := resize (N.to_nat (width_ o)) 0%N <$> count_matrix_ o |}.

Definition left_behind (o : CountMinSketch) : CountMinSketch :=
  {| width_ := 0; depth_ := 0; hash_functions_ := hash_functions_ o; count_matrix_ := [] |}.

(** The state of a loop that rewrites a vector front to back, after
    [k] iterations. *)
Definition progress {A} (k : nat) (final initial : list A) : list A :=
  take k final ++ drop k initial.

(** [result] is what [std::sort] may leave for the comparator [comp]:
    a permutation in which no element is [comp]-before an earlier one. *)
Definition sorted_by {A} (comp : A → A → bool) (input result : list A) : Prop :=
  result ≡ₚ input ∧ StronglySorted (λ a b, comp b a = false) result.

(** ** Instances used for concrete runs *)

(** Keys are integers hashed to themselves. *)
Definition int_hash (key : N) : N := key.

Definition mix (l r : N) : N := (31 * l + r)%N.

(** A sort meeting the contract of [std::sort]. *)
Definition a_sort {A} (comp : A → A → bool) (l : list A) : list A :=
  @merge_sort A (λ a b, comp b a = false) (λ a b, decide (comp b a = false)) l.

(** A sketch of width 3 and depth 2 at address 1 as the insertions
    5, 5, 7, 8 leave it, and one at address 2 after 5, 9. *)
Definition sample : CountMinSketch :=
  MkSketch 3 2 [MkHasher 0 1; MkHasher 1 1] [[3; 0; 1]; [1; 3; 0]]%N.

Definition sample2 : CountMinSketch :=
  MkSketch 3 2 [MkHasher 0 2; MkHasher 1 2] [[1; 1; 0]; [0; 1; 1]]%N.

Definition sample_store : gmap positive CountMinSketch :=
  <[2%positive := sample2]> (<[1%positive := sample]> ∅).

(** An inconsistent state: the first row is shorter than [width_]. *)
Definition torn : CountMinSketch :=
  MkSketch 2 2 [MkHasher 0 1; MkHasher 1 1] [[5]; [1; 1]]%N.

Definition torn_store : gmap positive CountMinSketch := <[1%positive := torn]> ∅.

(** Another inconsistent state: [width_] is 0 and the one row is empty,
    so the row has length [width_]. *)
Definition hollow : CountMinSketch := MkSketch 0 1 [MkHasher 0 1] [[]].

Definition hollow_store : gmap positive CountMinSketch := <[1%positive := hollow]> ∅.

(** Every counter of the matrix is below [bound]. *)
Definition counters_below (bound : N) (m : list (list N)) : Prop :=
  Forall (Forall (λ c, (c < bound)%N)) m.

(** The sketch that construction at [this] followed by the insertion
    of [items] leaves there (see [InsertAll_built]). *)
Definition built {KeyType} (std_hash : KeyType → N) (CombineHashes : N → N → N)
    (this : addr) (width depth : N) (items : list KeyType) : CountMinSketch :=
  {| width_ := width; depth_ := depth;
     hash_functions_ := push_hashers this depth [];
     count_matrix_ := insert_all std_hash CombineHashes width items (zeros width depth) |}.

(** What a move leaves of its source: width 0, depth 0 and no rows. *)
Definition emptied (o : CountMinSketch) : Prop :=
  width_ o = 0%N ∧ depth_ o = 0%N ∧ count_matrix_ o = [].

(** Every object of the store is a sketch as the constructors and
    insertions leave it, or what a move leaves of one. *)
Definition settled (st : gmap positive CountMinSketch) : Prop :=
  ∀ a o, st !! a = Some o → usable a o ∨ emptied o.

(** The stores that calls of the public operations build, starting
    from no object at all.  A constructor runs at an address that is
    not in use and takes [uint32_t] arguments; the other operations
    run on objects that exist. *)
Inductive reachable {KeyType} (std_hash : KeyType → N) (CombineHashes : N → N → N)
    : gmap positive CountMinSketch → Prop :=
  | reach_nothing : reachable std_hash CombineHashes ∅
  | reach_Construct st this width depth st' :
      reachable std_hash CombineHashes st → st !! this = None →
      (width < 4294967296)%N → (depth < 4294967296)%N →
      Construct st this width depth = Ok st' →
      reachable std_hash CombineHashes st'
  | reach_MoveConstruct st this other st' :
      reachable std_hash CombineHashes st → st !! this = None →
      MoveConstruct st this other = Ok st' →
      reachable std_hash CombineHashes st'
  | reach_MoveAssign st this other st' :
      reachable std_hash CombineHashes st →
      MoveAssign st this other = Ok st' →
      reachable std_hash CombineHashes st'
  | reach_Insert st this item st' :
      reachable std_hash CombineHashes st →
      Insert std_hash CombineHashes st this item = Ok st' →
      reachable std_hash CombineHashes st'
  | reach_Merge st this other st' :
      reachable std_hash CombineHashes st →
      Merge st this other = Ok st' →
      reachable std_hash CombineHashes st'
  | reach_Clear st this st' :
      reachable std_hash CombineHashes st →
      Clear st this = Ok st' →
      reachable std_hash CombineHashes st'.

(** A sketch with a single counter, at its largest value. *)
Definition full : CountMinSketch := MkSketch 1 1 [MkHasher 0 1] [[4294967295]]%N.

Definition full_store : gmap positive CountMinSketch := <[1%positive := full]> ∅.

(** * Properties *)

(** ** Loops and vectors *)

Lemma for_each_seq_inv {S} (P : nat → S → Prop) (body : nat → S → outcome S) a n s :
  P a s →
  (∀ i s, a ≤ i < a + n → P i s → ∃ s', body i s = Ok s' ∧ P (Datatypes.S i) s') →
  ∃ s', for_each body (seq a n) s = Ok s' ∧ P (a + n) s'.
Proof.
  revert a s. induction n as [|n IH]; intros a s Ha Hstep; simpl.
  - exists s. by rewrite Nat.add_0_r.
  - destruct (Hstep a s) as (s1 & -> & H1); [lia | done |]. simpl.
    destruct (IH (Datatypes.S a) s1) as (s2 & H2 & HP); [done | |].
    + intros i s' Hi. apply Hstep. lia.
    + exists s2. split; [done |]. by replace (a + Datatypes.S n) with (Datatypes.S a + n) by lia.
Qed.

Lemma for_range_inv {S} (P : nat → S → Prop) (body : nat → S → outcome S) n s :
  P 0 s →
  (∀ i s, i < N.to_nat n → P i s → ∃ s', body i s = Ok s' ∧ P (Datatypes.S i) s') →
  ∃ s', for_range n body s = Ok s' ∧ P (N.to_nat n) s'.
Proof.
  intros H0 Hstep. unfold for_range.
  apply (for_each_seq_inv P body 0 (N.to_nat n) s H0).
  intros i s' Hi. apply Hstep. lia.
Qed.

Lemma progress_0 {A} (final initial : list A) : progress 0 final initial = initial.
Proof. unfold progress. by rewrite take_0, drop_0. Qed.

Lemma progress_all {A} k (final initial : list A) :
  length final = length initial → k = length initial → progress k final initial = final.
Proof.
  intros Hl ->. unfold progress.
  rewrite take_ge, drop_all by lia. by rewrite app_nil_r.
Qed.

Lemma progress_lookup_ge {A} k i (final initial : list A) :
  length final = length initial → k ≤ i → progress k final initial !! i = initial !! i.
Proof.
  intros Hl Hk. unfold progress.
  destruct (decide (k ≤ length initial)) as [Hle|Hgt].
  - rewrite lookup_app_r; rewrite length_take; [|lia].
    rewrite lookup_drop. f_equal. lia.
  - rewrite take_ge, drop_ge, app_nil_r by lia.
    rewrite !lookup_ge_None_2; [done | lia | lia].
Qed.

Lemma progress_step {A} k x (final initial : list A) :
  length final = length initial → final !! k = Some x →
  <[k := x]> (progress k final initial) = progress (Datatypes.S k) final initial.
Proof.
  intros Hl Hx. unfold progress.
  assert (k < length final) as Hk by (by eapply lookup_lt_Some).
  destruct (lookup_lt_is_Some_2 initial k) as [y Hy]; [lia |].
  rewrite (drop_S initial y k Hy).
  rewrite (take_S_r final k x Hx).
  rewrite insert_app_r_alt; rewrite length_take; [|lia].
  replace (k - k `min` length final) with 0 by lia. simpl.
  by rewrite <- app_assoc.
Qed.

Lemma seq_split_at k n : k < n → seq 0 n = seq 0 k ++ k :: seq (Datatypes.S k) (n - Datatypes.S k).
Proof.
  intros Hk. replace n with (k + Datatypes.S (n - Datatypes.S k)) at 1 by lia.
  by rewrite seq_app.
Qed.

Lemma push_hashers_spec this depth :
  push_hashers this depth [] = (λ i, MkHasher (N.of_nat i) this) <$> seq 0 (N.to_nat depth).
Proof.
  unfold push_hashers.
  assert (∀ l hs, foldl (λ hs i, hs ++ [MkHasher (N.of_nat i) this]) hs l
                  = hs ++ ((λ i, MkHasher (N.of_nat i) this) <$> l)) as H.
  { induction l as [|i l IH]; intros hs; simpl; [by rewrite app_nil_r|].
    rewrite IH. by rewrite <- app_assoc. }
  by rewrite H.
Qed.

Lemma push_hashers_length this depth :
  length (push_hashers this depth []) = N.to_nat depth.
Proof. by rewrite push_hashers_spec, length_fmap, length_seq. Qed.

Lemma push_hashers_lookup this depth i :
  i < N.to_nat depth →
  push_hashers this depth [] !! i = Some (MkHasher (N.of_nat i) this).
Proof.
  intros Hi. rewrite push_hashers_spec, list_lookup_fmap.
  by rewrite lookup_seq_lt.
Qed.

Lemma push_hashers_elem this depth h :
  h ∈ push_hashers this depth [] →
  ∃ i, i < N.to_nat depth ∧ h = MkHasher (N.of_nat i) this.
Proof.
  rewrite push_hashers_spec. intros (i & -> & Hi)%list_elem_of_fmap.
  apply elem_of_seq in Hi. exists i. split; [lia | done].
Qed.

Lemma set_count_matrix_same o : set_count_matrix o (count_matrix_ o) = o.
Proof. by destruct o. Qed.

Lemma wrap32_small n : (n < 4294967296)%N → wrap32 n = n.
Proof. intros. unfold wrap32. by apply N.mod_small. Qed.

Lemma wrap32_le n : (wrap32 n ≤ n)%N.
Proof. unfold wrap32. by apply N.Div0.mod_le. Qed.

Lemma wrap32_lt n : (wrap32 n < 4294967296)%N.
Proof. unfold wrap32. by apply N.mod_lt. Qed.

Lemma wrap32_add_l a b : wrap32 (wrap32 a + b) = wrap32 (a + b).
Proof. unfold wrap32. by rewrite N.Div0.add_mod_idemp_l. Qed.

Section Properties.

Context {KeyType : Type} `{EqDecision KeyType}.
Variable std_hash : KeyType → N.
Variable CombineHashes : N → N → N.

#[local] Abbreviation call := (call std_hash CombineHashes).
#[local] Abbreviation Insert_row := (Insert_row std_hash CombineHashes).
#[local] Abbreviation Insert := (Insert std_hash CombineHashes).
#[local] Abbreviation InsertAll := (InsertAll std_hash CombineHashes).
#[local] Abbreviation Count_loop := (Count_loop std_hash CombineHashes).
#[local] Abbreviation Count := (Count std_hash CombineHashes).
#[local] Abbreviation Count_skipping_loop := (Count_skipping_loop std_hash CombineHashes).
#[local] Abbreviation Count_skipping := (Count_skipping std_hash CombineHashes).
#[local] Abbreviation TopK_loop := (TopK_loop std_hash CombineHashes).
#[local] Abbreviation TopK := (TopK std_hash CombineHashes).
#[local] Abbreviation structural_invariant := (structural_invariant std_hash CombineHashes).
#[local] Abbreviation column := (column std_hash CombineHashes).
#[local] Abbreviation hashed := (hashed std_hash CombineHashes).
#[local] Abbreviation row_ready := (row_ready std_hash CombineHashes).
#[local] Abbreviation estimate := (estimate std_hash CombineHashes).
#[local] Abbreviation hits := (hits std_hash CombineHashes).
#[local] Abbreviation hit := (hit std_hash CombineHashes).
#[local] Abbreviation insert_all := (insert_all std_hash CombineHashes).
#[local] Abbreviation built := (built std_hash CombineHashes).
#[local] Abbreviation reachable := (reachable std_hash CombineHashes).

(** ** Calling a hasher *)

Lemma call_eq st h o item :
  st !! captured_this h = Some o → width_ o ≠ 0%N →
  call st h item
  = Ok (CombineHashes (std_hash item) (CombineHashes (seed h) SEED_BASE) mod width_ o)%N.
Proof.
  intros Ho Hw. unfold call, deref. rewrite Ho. simpl.
  by apply N.eqb_neq in Hw as ->.
Qed.

Lemma call_own st this o i item :
  st !! this = Some o → width_ o ≠ 0%N →
  call st (MkHasher (N.of_nat i) this) item = Ok (column (width_ o) i item).
Proof. intros Ho Hw. by rewrite (call_eq _ _ o). Qed.

Lemma call_in_range st h item : call st h item ≠ Undefined OutOfRange.
Proof.
  unfold call, deref. destruct (st !! captured_this h) as [o|]; [|done]. simpl.
  by destruct (width_ o =? 0)%N.
Qed.

(** A hasher only reads the width of the object it captured. *)
Lemma call_frame st st' h item :
  (∀ a, width_ <$> st' !! a = width_ <$> st !! a) →
  call st' h item = call st h item.
Proof.
  intros Hw. unfold call, deref. specialize (Hw (captured_this h)).
  destruct (st' !! captured_this h) as [o'|], (st !! captured_this h) as [o|];
    simplify_eq/=; [|done].
  by rewrite Hw.
Qed.

Lemma call_set_count_matrix st this o m h item :
  st !! this = Some o →
  call (<[this := set_count_matrix o m]> st) h item = call st h item.
Proof.
  intros Ho. apply call_frame. intros a.
  destruct (decide (this = a)) as [<-|Hne].
  - by rewrite lookup_insert_eq, Ho.
  - by rewrite lookup_insert_ne.
Qed.

(** ** Insert *)

Lemma bump_length j row : length (bump j row) = length row.
Proof. unfold bump. by rewrite length_insert. Qed.

Lemma bump_rows_length col m : length (bump_rows col m) = length m.
Proof. unfold bump_rows. by rewrite length_imap. Qed.

Lemma bump_rows_lookup col m i row :
  m !! i = Some row → bump_rows col m !! i = Some (bump (col i) row).
Proof. intros H. unfold bump_rows. by rewrite list_lookup_imap, H. Qed.

Lemma bump_rows_shape col m (w : N) :
  Forall (λ row, N.of_nat (length row) = w) m →
  Forall (λ row, N.of_nat (length row) = w) (bump_rows col m).
Proof.
  rewrite !Forall_lookup. intros H i row'. unfold bump_rows.
  rewrite list_lookup_imap. destruct (m !! i) as [row|] eqn:Hrow; [|done].
  intros [= <-]. rewrite bump_length. by eapply H.
Qed.

Lemma Insert_spec st this o item :
  st !! this = Some o →
  N.of_nat (length (count_matrix_ o)) = depth_ o →
  Forall (λ row, N.of_nat (length row) = width_ o) (count_matrix_ o) →
  (∀ i, i < N.to_nat (depth_ o) →
     ∃ h c, hash_functions_ o !! i = Some h ∧ call st h item = Ok c ∧ (c < width_ o)%N) →
  Insert st this item
  = Ok (<[this := set_count_matrix o
                    (bump_rows (λ i, N.to_nat (wrap32 (hashed st o item i))) (count_matrix_ o))]> st).
Proof.
  intros Ho Hrows Hshape Hcall.
  set (final := bump_rows (λ i, N.to_nat (wrap32 (hashed st o item i))) (count_matrix_ o)).
  assert (length final = length (count_matrix_ o)) as Hlen by apply bump_rows_length.
  unfold Insert, deref. rewrite Ho. simpl.
  destruct (for_range_inv
    (λ k s, s = <[this := set_count_matrix o (progress k final (count_matrix_ o))]> st)
    (Insert_row this item) (depth_ o) st) as (s' & -> & ->).
  - by rewrite progress_0, set_count_matrix_same, insert_id.
  - intros k s Hk ->. eexists. split; [|reflexivity].
    destruct (Hcall k Hk) as (h & c & Hh & Hc & Hlt).
    destruct (lookup_lt_is_Some_2 (count_matrix_ o) k) as [row Hrow]; [lia|].
    assert (N.of_nat (length row) = width_ o) as Hrowlen
      by (by eapply (proj1 (Forall_lookup _ _) Hshape)).
    assert (hashed st o item k = c) as Hhashed
      by (unfold hashed; by rewrite Hh, Hc).
    pose proof (wrap32_le c) as Hwrap.
    destruct (lookup_lt_is_Some_2 row (N.to_nat (wrap32 c))) as [c0 Hc0]; [lia|].
    unfold Insert_row, deref, at_. rewrite lookup_insert_eq. simpl.
    rewrite Hh. simpl.
    rewrite (call_set_count_matrix _ _ _ _ _ _ Ho), Hc. simpl.
    rewrite progress_lookup_ge by (done || lia). rewrite Hrow. simpl.
    rewrite Hc0. simpl.
    rewrite insert_insert_eq. do 3 f_equal.
    apply progress_step; [done|].
    subst final. rewrite (bump_rows_lookup _ _ _ _ Hrow). unfold bump.
    by rewrite Hhashed, Hc0.
  - by rewrite progress_all by lia.
Qed.

(** ** Count *)

Lemma finish_small n : (n < UINT32_MAX)%N → finish n = n.
Proof.
  intros Hn. unfold finish. destruct (N.eqb_spec n UINT32_MAX); [lia | done].
Qed.

Lemma Count_loop_spec st o item rows acc :
  (∀ i, i ∈ rows → row_ready st o item i) →
  Count_loop st o item rows acc
  = Ok (finish (foldl N.min acc
                  (omap (contribution (width_ o) (count_matrix_ o) (hashed st o item)) rows))).
Proof.
  revert acc. induction rows as [|i rows IH]; intros acc Hrows; [done|].
  destruct (Hrows i) as (row & h & c & Hrow & Hlen & Hh & Hc); [by left|].
  assert (hashed st o item i = c) as Hhashed
    by (unfold hashed; by rewrite Hh, Hc).
  cbn [Count_loop]. unfold at_. rewrite Hrow. simpl.
  apply N.eqb_eq in Hlen as Hlenb. rewrite Hlenb. simpl.
  rewrite Hh. simpl. rewrite Hc. simpl.
  unfold contribution at 1. rewrite Hhashed.
  destruct (N.leb_spec (width_ o) c) as [Hge|Hlt].
  - apply IH. intros j Hj. apply Hrows. by right.
  - destruct (lookup_lt_is_Some_2 row (N.to_nat c)) as [x Hx]; [lia|].
    rewrite Hx. simpl.
    replace (cell (count_matrix_ o) i (N.to_nat c)) with x
      by (unfold cell; by rewrite Hrow; simpl; rewrite Hx).
    apply IH. intros j Hj. apply Hrows. by right.
Qed.

Lemma Count_loop_in_range st o item rows acc :
  (∀ i, i ∈ rows → i < length (count_matrix_ o) ∧ i < length (hash_functions_ o)) →
  Count_loop st o item rows acc ≠ Undefined OutOfRange.
Proof.
  revert acc. induction rows as [|i rows IH]; intros acc Hrows; [done|].
  destruct (Hrows i) as [Hm Hh]; [by left|].
  destruct (lookup_lt_is_Some_2 _ _ Hm) as [row Hrow].
  destruct (lookup_lt_is_Some_2 _ _ Hh) as [h Hhl].
  assert (∀ acc', Count_loop st o item rows acc' ≠ Undefined OutOfRange) as IH'.
  { intros acc'. apply IH. intros j Hj. apply Hrows. by right. }
  cbn [Count_loop]. unfold at_. rewrite Hrow. simpl.
  destruct (N.eqb_spec (N.of_nat (length row)) (width_ o)) as [Hlen|Hlen]; simpl; [|done].
  rewrite Hhl. simpl.
  pose proof (call_in_range st h item) as Hcall.
  destruct (call st h item) as [c| |f] eqn:Hc; simpl; [|done|done].
  destruct (N.leb_spec (width_ o) c) as [Hge|Hlt]; [apply IH'|].
  destruct (lookup_lt_is_Some_2 row (N.to_nat c)) as [x Hx]; [lia|].
  rewrite Hx. simpl. apply IH'.
Qed.

(** The loop stops at the first row of the wrong length. *)
Lemma Count_loop_stops st o item rows1 k rows2 row acc :
  (∀ i, i ∈ rows1 → row_ready st o item i) →
  count_matrix_ o !! k = Some row → N.of_nat (length row) ≠ width_ o →
  Count_loop st o item (rows1 ++ k :: rows2) acc = Ok (default 0%N (head row)).
Proof.
  revert acc. induction rows1 as [|i rows1 IH]; intros acc Hrows Hrow Hlen.
  - cbn [app Count_loop]. unfold at_. rewrite Hrow. simpl.
    apply N.eqb_neq in Hlen as ->. simpl. by destruct row.
  - destruct (Hrows i) as (rowi & h & c & Hrowi & Hleni & Hh & Hc); [by left|].
    assert (∀ acc', Count_loop st o item (rows1 ++ k :: rows2) acc'
                    = Ok (default 0%N (head row))) as IH'.
    { intros acc'. apply IH; [|done..]. intros j Hj. apply Hrows. by right. }
    cbn [app Count_loop]. unfold at_. rewrite Hrowi. simpl.
    apply N.eqb_eq in Hleni as Hlenb. rewrite Hlenb. simpl.
    rewrite Hh. simpl. rewrite Hc. simpl.
    destruct (N.leb_spec (width_ o) c) as [Hge|Hlt]; [apply IH'|].
    destruct (lookup_lt_is_Some_2 rowi (N.to_nat c)) as [x Hx]; [lia|].
    rewrite Hx. simpl. apply IH'.
Qed.

Lemma Count_skipping_loop_spec st o item rows best :
  (∀ i, i ∈ rows → row_ready st o item i) →
  Count_skipping_loop st o item rows best
  = Ok (default 0%N (foldl min_option best
          (omap (contribution (width_ o) (count_matrix_ o) (hashed st o item)) rows))).
Proof.
  revert best. induction rows as [|i rows IH]; intros best Hrows; [done|].
  destruct (Hrows i) as (row & h & c & Hrow & Hlen & Hh & Hc); [by left|].
  assert (hashed st o item i = c) as Hhashed
    by (unfold hashed; by rewrite Hh, Hc).
  cbn [Count_skipping_loop]. unfold at_. rewrite Hrow. simpl.
  apply N.eqb_eq in Hlen as Hlenb. rewrite Hlenb. simpl.
  rewrite Hh. simpl. rewrite Hc. simpl.
  unfold contribution at 1. rewrite Hhashed.
  destruct (N.leb_spec (width_ o) c) as [Hge|Hlt].
  - apply IH. intros j Hj. apply Hrows. by right.
  - destruct (lookup_lt_is_Some_2 row (N.to_nat c)) as [x Hx]; [lia|].
    rewrite Hx. simpl.
    replace (cell (count_matrix_ o) i (N.to_nat c)) with x
      by (unfold cell; by rewrite Hrow; simpl; rewrite Hx).
    apply IH. intros j Hj. apply Hrows. by right.
Qed.

Lemma finish_min_option cs acc best v :
  acc = N.min UINT32_MAX (default UINT32_MAX best) →
  default 0%N (foldl min_option best cs) = v → (v < UINT32_MAX)%N →
  finish (foldl N.min acc cs) = v.
Proof.
  revert acc best. induction cs as [|c cs IH]; intros acc best Hacc Hv Hlt; simpl in *.
  - destruct best as [b|]; simpl in *; subst.
    + rewrite N.min_r by lia. apply finish_small. lia.
    + done.
  - apply (IH _ (min_option best c)); [|done..].
    destruct best as [b|]; simpl in *; subst; lia.
Qed.

Lemma Count_spec st this o item :
  st !! this = Some o →
  N.of_nat (length (count_matrix_ o)) = depth_ o →
  Forall (λ row, N.of_nat (length row) = width_ o) (count_matrix_ o) →
  N.of_nat (length (hash_functions_ o)) = depth_ o →
  (∀ h, h ∈ hash_functions_ o → ∃ c, call st h item = Ok c) →
  Count st this item = Ok (estimate st o item).
Proof.
  intros Ho Hrows Hshape Hhs Hcall.
  unfold Count, deref. rewrite Ho. simpl.
  apply N.eqb_eq in Hrows as Hrowsb. apply N.eqb_eq in Hhs as Hhsb.
  rewrite Hrowsb, Hhsb. simpl. rewrite orb_false_r.
  case_bool_decide as Hempty.
  - unfold estimate. rewrite <- Hrows, Hempty. done.
  - apply Count_loop_spec. intros i Hi%elem_of_seq.
    destruct (lookup_lt_is_Some_2 (count_matrix_ o) i) as [row Hrow]; [lia|].
    destruct (lookup_lt_is_Some_2 (hash_functions_ o) i) as [h Hh]; [lia|].
    destruct (Hcall h) as [c Hc]; [by eapply list_elem_of_lookup_2|].
    exists row, h, c. split_and!; try done.
    by eapply (proj1 (Forall_lookup _ _) Hshape).
Qed.

Lemma Count_in_range st this item : Count st this item ≠ Undefined OutOfRange.
Proof.
  unfold Count, deref. destruct (st !! this) as [o|]; [|done]. simpl.
  case_bool_decide; [done|]. simpl.
  destruct (N.eqb_spec (N.of_nat (length (count_matrix_ o))) (depth_ o)); [|done].
  destruct (N.eqb_spec (N.of_nat (length (hash_functions_ o))) (depth_ o)); [|done].
  simpl. apply Count_loop_in_range. intros i Hi%elem_of_seq. lia.
Qed.

Lemma call_never_throws st h item e st' : call st h item ≠ Throw e st'.
Proof.
  unfold call, deref. destruct (st !! captured_this h) as [o|]; [|done]. simpl.
  by destruct (width_ o =? 0)%N.
Qed.

Lemma call_fault st h item f :
  call st h item = Undefined f → f = DivideByZero ∨ f = Dangling.
Proof.
  unfold call, deref. destruct (st !! captured_this h) as [o|]; simpl.
  - destruct (width_ o =? 0)%N; [|done]. intros [= <-]. by left.
  - intros [= <-]. by right.
Qed.

Lemma Count_loop_never_throws st o item rows acc e st' :
  Count_loop st o item rows acc ≠ Throw e st'.
Proof.
  revert acc. induction rows as [|i rows IH]; intros acc; [done|].
  cbn [Count_loop]. unfold at_.
  destruct (count_matrix_ o !! i) as [row|]; [|done]. simpl.
  destruct (negb (N.of_nat (length row) =? width_ o)%N); [done|].
  destruct (hash_functions_ o !! i) as [h|]; [|done]. simpl.
  pose proof (call_never_throws st h item e st') as Hcall.
  destruct (call st h item) as [c|e' s'|f]; simpl; [| |done].
  - destruct (width_ o <=? c)%N; [apply IH|].
    destruct (row !! N.to_nat c); [apply IH|done].
  - intros [= -> ->]. by apply Hcall.
Qed.

Lemma Count_never_throws st this item e st' : Count st this item ≠ Throw e st'.
Proof.
  unfold Count, deref. destruct (st !! this) as [o|]; [|done]. simpl.
  destruct (_ || _); [done|]. apply Count_loop_never_throws.
Qed.

(** The loop is undefined only through one of its hasher calls, on a
    row of the right length. *)
Lemma Count_loop_undefined st o item rows acc f :
  (∀ i, i ∈ rows → i < length (count_matrix_ o) ∧ i < length (hash_functions_ o)) →
  Count_loop st o item rows acc = Undefined f →
  ∃ k row h, k ∈ rows ∧ count_matrix_ o !! k = Some row ∧
    N.of_nat (length row) = width_ o ∧
    hash_functions_ o !! k = Some h ∧ call st h item = Undefined f.
Proof.
  revert acc. induction rows as [|i rows IH]; intros acc Hrows; [done|].
  destruct (Hrows i) as [Hm Hh]; [by left|].
  destruct (lookup_lt_is_Some_2 _ _ Hm) as [row Hrow].
  destruct (lookup_lt_is_Some_2 _ _ Hh) as [h Hhl].
  assert (∀ acc', Count_loop st o item rows acc' = Undefined f →
    ∃ k row h, k ∈ i :: rows ∧ count_matrix_ o !! k = Some row ∧
      N.of_nat (length row) = width_ o ∧
      hash_functions_ o !! k = Some h ∧ call st h item = Undefined f) as IH'.
  { intros acc' Hu. destruct (IH acc') as (k & row' & h' & Hk & Hrest); [|done|].
    - intros j Hj. apply Hrows. by right.
    - exists k, row', h'. split; [by right|done]. }
  cbn [Count_loop]. unfold at_. rewrite Hrow. simpl.
  destruct (N.eqb_spec (N.of_nat (length row)) (width_ o)) as [Hlen|Hlen]; simpl; [|done].
  rewrite Hhl. simpl.
  destruct (call st h item) as [c| |f'] eqn:Hc; simpl; [|done|].
  - destruct (N.leb_spec (width_ o) c) as [Hge|Hlt]; [apply IH'|].
    destruct (lookup_lt_is_Some_2 row (N.to_nat c)) as [x Hx]; [lia|].
    rewrite Hx. simpl. apply IH'.
  - intros [= ->]. exists i, row, h. split; [by left|done].
Qed.

(** The loop has the undefined behaviour of the first hasher call
    that has one. *)
Lemma Count_loop_faults st o item rows1 k rows2 row h f acc :
  (∀ i, i ∈ rows1 → row_ready st o item i) →
  count_matrix_ o !! k = Some row → N.of_nat (length row) = width_ o →
  hash_functions_ o !! k = Some h → call st h item = Undefined f →
  Count_loop st o item (rows1 ++ k :: rows2) acc = Undefined f.
Proof.
  revert acc. induction rows1 as [|i rows1 IH]; intros acc Hrows Hrow Hlen Hh Hc.
  - cbn [app Count_loop]. unfold at_. rewrite Hrow. simpl.
    apply N.eqb_eq in Hlen as ->. simpl. rewrite Hh. simpl. by rewrite Hc.
  - destruct (Hrows i) as (rowi & hi & c & Hrowi & Hleni & Hhi & Hci); [by left|].
    assert (∀ acc', Count_loop st o item (rows1 ++ k :: rows2) acc' = Undefined f) as IH'.
    { intros acc'. apply IH; [|done..]. intros j Hj. apply Hrows. by right. }
    cbn [app Count_loop]. unfold at_. rewrite Hrowi. simpl.
    apply N.eqb_eq in Hleni as Hlenb. rewrite Hlenb. simpl.
    rewrite Hhi. simpl. rewrite Hci. simpl.
    destruct (N.leb_spec (width_ o) c) as [Hge|Hlt]; [apply IH'|].
    destruct (lookup_lt_is_Some_2 rowi (N.to_nat c)) as [x Hx]; [lia|].
    rewrite Hx. simpl. apply IH'.
Qed.

(** ** Clear *)

Lemma Clear_row_spec st this o i row :
  st !! this = Some o → count_matrix_ o !! i = Some row →
  for_range (N.of_nat (length row)) (λ j, Clear_cell this i j) st
  = Ok (<[this := set_count_matrix o
                    (<[i := replicate (length row) 0%N]> (count_matrix_ o))]> st).
Proof.
  intros Ho Hrow.
  set (final := replicate (length row) 0%N).
  assert (length final = length row) as Hlen by apply length_replicate.
  assert (i < length (count_matrix_ o)) as Hi by (by eapply lookup_lt_Some).
  destruct (for_range_inv
    (λ j s, s = <[this := set_count_matrix o
                            (<[i := progress j final row]> (count_matrix_ o))]> st)
    (λ j, Clear_cell this i j) (N.of_nat (length row)) st) as (s' & -> & ->).
  - by rewrite progress_0, list_insert_id, set_count_matrix_same, insert_id.
  - intros j s Hj ->. eexists. split; [|reflexivity].
    rewrite Nat2N.id in Hj.
    destruct (lookup_lt_is_Some_2 row j) as [c Hc]; [lia|].
    unfold Clear_cell, deref, at_. rewrite lookup_insert_eq. simpl.
    rewrite list_lookup_insert_eq by done. simpl.
    rewrite progress_lookup_ge by (done || lia). rewrite Hc. simpl.
    rewrite insert_insert_eq, list_insert_insert_eq. do 4 f_equal.
    apply progress_step; [done|]. subst final. by apply lookup_replicate_2.
  - rewrite Nat2N.id. by rewrite progress_all.
Qed.

Lemma zeros_length width depth : length (zeros width depth) = N.to_nat depth.
Proof. apply length_replicate. Qed.

Lemma zeros_lookup width depth i :
  i < N.to_nat depth → zeros width depth !! i = Some (replicate (N.to_nat width) 0%N).
Proof. intros. by apply lookup_replicate_2. Qed.

Lemma zeros_shape width depth :
  Forall (λ row, N.of_nat (length row) = width) (zeros width depth).
Proof.
  apply Forall_forall. intros row [-> _]%elem_of_replicate.
  rewrite length_replicate. lia.
Qed.

Lemma cell_zeros width depth i j : cell (zeros width depth) i j = 0%N.
Proof.
  unfold cell, zeros. destruct (replicate _ _ !! i) as [row|] eqn:Hrow; [|done]. simpl.
  apply lookup_replicate in Hrow as [-> _].
  destruct (replicate _ _ !! j) as [c|] eqn:Hc; [|done].
  by apply lookup_replicate in Hc as [-> _].
Qed.

Lemma Clear_spec st this o :
  st !! this = Some o →
  N.of_nat (length (count_matrix_ o)) = depth_ o →
  Forall (λ row, N.of_nat (length row) = width_ o) (count_matrix_ o) →
  Clear st this = Ok (<[this := set_count_matrix o (zeros (width_ o) (depth_ o))]> st).
Proof.
  intros Ho Hrows Hshape.
  set (final := zeros (width_ o) (depth_ o)).
  assert (length final = length (count_matrix_ o)) as Hlen
    by (subst final; rewrite zeros_length; lia).
  unfold Clear, deref. rewrite Ho. simpl.
  destruct (for_range_inv
    (λ k s, s = <[this := set_count_matrix o (progress k final (count_matrix_ o))]> st)
    (λ i, for_range (width_ o) (λ j, Clear_cell this i j)) (depth_ o) st) as (s' & -> & ->).
  - by rewrite progress_0, set_count_matrix_same, insert_id.
  - intros k s Hk ->. eexists. split; [|reflexivity].
    destruct (lookup_lt_is_Some_2 (count_matrix_ o) k) as [row Hrow]; [lia|].
    assert (N.of_nat (length row) = width_ o) as Hrowlen
      by (by eapply (proj1 (Forall_lookup _ _) Hshape)).
    rewrite <- Hrowlen.
    erewrite Clear_row_spec; [|apply lookup_insert_eq|]; last first.
    { simpl. by rewrite progress_lookup_ge by (done || lia). }
    rewrite insert_insert_eq. simpl. do 3 f_equal.
    apply progress_step; [done|]. subst final. rewrite zeros_lookup by lia.
    do 2 f_equal. lia.
  - by rewrite progress_all by lia.
Qed.

(** ** Merge *)

Lemma add_rows_length m1 m2 :
  length m1 = length m2 → length (add_rows m1 m2) = length m1.
Proof. intros H. unfold add_rows. rewrite length_zip_with. lia. Qed.

Lemma add_rows_lookup m1 m2 i r1 r2 :
  m1 !! i = Some r1 → m2 !! i = Some r2 →
  add_rows m1 m2 !! i = Some (zip_with (λ a b, wrap32 (a + b)) r1 r2).
Proof. intros H1 H2. unfold add_rows. by rewrite lookup_zip_with, H1; simpl; rewrite H2. Qed.

Lemma add_rows_shape m1 m2 (w : N) :
  Forall (λ row, N.of_nat (length row) = w) m1 →
  Forall (λ row, N.of_nat (length row) = w) m2 →
  Forall (λ row, N.of_nat (length row) = w) (add_rows m1 m2).
Proof.
  rewrite !Forall_lookup. intros H1 H2 i row. unfold add_rows.
  rewrite lookup_zip_with.
  destruct (m1 !! i) as [r1|] eqn:Hr1; [|done]. simpl.
  destruct (m2 !! i) as [r2|] eqn:Hr2; [|done]. simpl.
  intros [= <-]. rewrite length_zip_with.
  specialize (H1 _ _ Hr1). specialize (H2 _ _ Hr2). lia.
Qed.

(** One row of [Merge]; [other] may be [this] itself. *)
Lemma Merge_row_spec st this other t i row orow :
  st !! this = Some t → count_matrix_ t !! i = Some row →
  length orow = length row →
  (if decide (this = other) then orow = row
   else ∃ o, st !! other = Some o ∧ count_matrix_ o !! i = Some orow) →
  for_range (N.of_nat (length row)) (λ j, Merge_cell this other i j) st
  = Ok (<[this := set_count_matrix t
                    (<[i := zip_with (λ a b, wrap32 (a + b)) row orow]> (count_matrix_ t))]> st).
Proof.
  intros Ht Hrow Holen Hother.
  set (final := zip_with (λ a b, wrap32 (a + b)) row orow).
  assert (length final = length row) as Hlen
    by (subst final; rewrite length_zip_with; lia).
  assert (i < length (count_matrix_ t)) as Hi by (by eapply lookup_lt_Some).
  destruct (for_range_inv
    (λ j s, s = <[this := set_count_matrix t
                            (<[i := progress j final row]> (count_matrix_ t))]> st)
    (λ j, Merge_cell this other i j) (N.of_nat (length row)) st) as (s' & -> & ->).
  - by rewrite progress_0, list_insert_id, set_count_matrix_same, insert_id.
  - intros j s Hj ->. eexists. split; [|reflexivity].
    rewrite Nat2N.id in Hj.
    destruct (lookup_lt_is_Some_2 row j) as [a Ha]; [lia|].
    destruct (lookup_lt_is_Some_2 orow j) as [b Hb]; [lia|].
    assert (Merge_cell this other i j
              (<[this := set_count_matrix t
                           (<[i := progress j final row]> (count_matrix_ t))]> st)
            = Ok (<[this := set_count_matrix t
                      (<[i := <[j := wrap32 (a + b)]> (progress j final row)]>
                         (count_matrix_ t))]> st)) as ->.
    { unfold Merge_cell, deref, at_. rewrite lookup_insert_eq. simpl.
      destruct (decide (this = other)) as [<-|Hne].
      - subst orow. rewrite lookup_insert_eq. simpl.
        rewrite list_lookup_insert_eq by done. simpl.
        rewrite progress_lookup_ge by (done || lia). rewrite Ha. simpl.
        rewrite insert_insert_eq, list_insert_insert_eq.
        by simplify_eq.
      - destruct Hother as (o & Ho & Horow).
        rewrite lookup_insert_ne by done. rewrite Ho. simpl.
        rewrite list_lookup_insert_eq by done. simpl.
        rewrite progress_lookup_ge by (done || lia). rewrite Ha. simpl.
        rewrite Horow. simpl. rewrite Hb. simpl.
        by rewrite insert_insert_eq, list_insert_insert_eq. }
    do 4 f_equal. apply progress_step; [done|]. subst final.
    by rewrite lookup_zip_with, Ha; simpl; rewrite Hb.
  - rewrite Nat2N.id. by rewrite progress_all.
Qed.

Lemma Merge_spec st this other t o :
  st !! this = Some t → st !! other = Some o →
  N.of_nat (length (count_matrix_ t)) = depth_ t →
  Forall (λ row, N.of_nat (length row) = width_ t) (count_matrix_ t) →
  N.of_nat (length (count_matrix_ o)) = depth_ o →
  Forall (λ row, N.of_nat (length row) = width_ o) (count_matrix_ o) →
  width_ t = width_ o → depth_ t = depth_ o →
  Merge st this other
  = Ok (<[this := set_count_matrix t (add_rows (count_matrix_ t) (count_matrix_ o))]> st).
Proof.
  intros Ht Ho Htrows Htshape Horows Hoshape Hw Hd.
  set (final := add_rows (count_matrix_ t) (count_matrix_ o)).
  assert (length final = length (count_matrix_ t)) as Hlen
    by (subst final; apply add_rows_length; lia).
  unfold Merge, deref. rewrite Ht, Ho. simpl.
  apply N.eqb_eq in Hw as Hwb. apply N.eqb_eq in Hd as Hdb. rewrite Hwb, Hdb. simpl.
  destruct (for_range_inv
    (λ k s, s = <[this := set_count_matrix t (progress k final (count_matrix_ t))]> st)
    (λ i, for_range (width_ t) (λ j, Merge_cell this other i j)) (depth_ t) st)
    as (s' & -> & ->).
  - by rewrite progress_0, set_count_matrix_same, insert_id.
  - intros k s Hk ->. eexists. split; [|reflexivity].
    destruct (lookup_lt_is_Some_2 (count_matrix_ t) k) as [row Hrow]; [lia|].
    destruct (lookup_lt_is_Some_2 (count_matrix_ o) k) as [orow Horow]; [lia|].
    assert (N.of_nat (length row) = width_ t) as Hrowlen
      by (by eapply (proj1 (Forall_lookup _ _) Htshape)).
    assert (N.of_nat (length orow) = width_ o) as Horowlen
      by (by eapply (proj1 (Forall_lookup _ _) Hoshape)).
    rewrite <- Hrowlen.
    erewrite (Merge_row_spec _ this other _ k row orow);
      [|apply lookup_insert_eq| |lia|]; cycle 1.
    { simpl. by rewrite progress_lookup_ge by (done || lia). }
    { destruct (decide (this = other)) as [<-|Hne].
      - simplify_eq. done.
      - exists o. by rewrite lookup_insert_ne. }
    rewrite insert_insert_eq. simpl. do 3 f_equal.
    apply progress_step; [done|]. subst final.
    by apply add_rows_lookup.
  - by rewrite progress_all by lia.
Qed.

Lemma Merge_Throw st this other t o :
  st !! this = Some t → st !! other = Some o →
  width_ t ≠ width_ o ∨ depth_ t ≠ depth_ o →
  Merge st this other = Throw invalid_argument st.
Proof.
  intros Ht Ho Hdims. unfold Merge, deref. rewrite Ht, Ho. simpl.
  destruct (N.eqb_spec (width_ t) (width_ o)), (N.eqb_spec (depth_ t) (depth_ o));
    simpl; try done. by destruct Hdims.
Qed.

Lemma lookup_cell_add_rows m1 m2 i j a b :
  m1 !! i ≫= (.!! j) = Some a → m2 !! i ≫= (.!! j) = Some b →
  add_rows m1 m2 !! i ≫= (.!! j) = Some (wrap32 (a + b)).
Proof.
  intros Ha Hb.
  destruct (m1 !! i) as [r1|] eqn:H1; [|done].
  destruct (m2 !! i) as [r2|] eqn:H2; [|done]. simpl in *.
  rewrite (add_rows_lookup _ _ _ _ _ H1 H2). simpl.
  by rewrite lookup_zip_with, Ha; simpl; rewrite Hb.
Qed.

(** ** Construction and the invariant *)

Lemma Construct_Ok st this width depth :
  width ≠ 0%N → depth ≠ 0%N →
  Construct st this width depth
  = Ok (<[this := MkSketch width depth (push_hashers this depth []) (zeros width depth)]> st).
Proof.
  intros Hw%N.eqb_neq Hd%N.eqb_neq. unfold Construct. by rewrite Hw, Hd.
Qed.

Lemma Construct_Throw st this width depth :
  width = 0%N ∨ depth = 0%N →
  Construct st this width depth = Throw invalid_argument st.
Proof.
  unfold Construct. intros [->| ->]; [done|]. by rewrite orb_true_r.
Qed.

Lemma Construct_inv st this width depth st' :
  Construct st this width depth = Ok st' →
  width ≠ 0%N ∧ depth ≠ 0%N ∧
  st' = <[this := MkSketch width depth (push_hashers this depth []) (zeros width depth)]> st.
Proof.
  unfold Construct.
  destruct (N.eqb_spec width 0), (N.eqb_spec depth 0); simpl; try done.
  by intros [= <-].
Qed.

Lemma usable_fresh this width depth :
  (0 < width < 4294967296)%N → (0 < depth)%N →
  usable this (MkSketch width depth (push_hashers this depth []) (zeros width depth)).
Proof.
  intros Hw Hd. unfold usable. simpl. split_and!; try done; try lia.
  - rewrite zeros_length. lia.
  - apply zeros_shape.
Qed.

Lemma own_hashers_structural_invariant st this o :
  st !! this = Some o →
  N.of_nat (length (count_matrix_ o)) = depth_ o →
  Forall (λ row, N.of_nat (length row) = width_ o) (count_matrix_ o) →
  hash_functions_ o = push_hashers this (depth_ o) [] →
  (KeyType → depth_ o ≠ 0%N → width_ o ≠ 0%N) →
  structural_invariant st this.
Proof.
  intros Ho Hrows Hshape Hhs Hw. exists o. split_and!; try done.
  - rewrite Hhs, push_hashers_length. lia.
  - intros h item Hh. rewrite Hhs in Hh.
    apply push_hashers_elem in Hh as (i & Hi & ->).
    assert (width_ o ≠ 0%N) as Hw' by (apply Hw; [done|lia]).
    rewrite (call_own _ _ o) by done.
    eexists. split; [done|]. by apply N.mod_lt.
Qed.

Lemma usable_structural_invariant st this o :
  st !! this = Some o → usable this o → structural_invariant st this.
Proof.
  intros Ho (Hw & Hd & Hrows & Hshape & Hhs).
  apply (own_hashers_structural_invariant st this o); try done. lia.
Qed.

Lemma Construct_structural_invariant st this width depth st' :
  Construct st this width depth = Ok st' → structural_invariant st' this.
Proof.
  intros (Hw & Hd & ->)%Construct_inv.
  eapply own_hashers_structural_invariant; [apply lookup_insert_eq|..]; simpl; try done.
  - rewrite zeros_length. lia.
  - apply zeros_shape.
Qed.

Lemma usable_hashed st this o item i :
  st !! this = Some o → usable this o → i < N.to_nat (depth_ o) →
  hashed st o item i = column (width_ o) i item.
Proof.
  intros Ho (Hw & Hd & Hrows & Hshape & Hhs) Hi. unfold hashed.
  rewrite Hhs, (push_hashers_lookup this) by done.
  rewrite (call_own _ _ o) by (done || lia). done.
Qed.

Lemma column_lt width i item : width ≠ 0%N → (column width i item < width)%N.
Proof. intros. by apply N.mod_lt. Qed.

(** Rewriting the counters keeps the invariant of every object. *)
Lemma structural_invariant_set_count_matrix st this o m a :
  st !! this = Some o →
  length m = length (count_matrix_ o) →
  Forall (λ row, N.of_nat (length row) = width_ o) m →
  structural_invariant st a →
  structural_invariant (<[this := set_count_matrix o m]> st) a.
Proof.
  intros Ho Hlen Hshape (oa & Hoa & Hrows & Hsh & Hhs & Hcall).
  destruct (decide (this = a)) as [<-|Hne].
  - simplify_eq. exists (set_count_matrix o m). rewrite lookup_insert_eq. simpl.
    split_and!; try done; [by rewrite Hlen|].
    intros h item Hh. rewrite (call_set_count_matrix _ _ _ _ _ _ Ho). by apply Hcall.
  - exists oa. rewrite lookup_insert_ne by done. split_and!; try done.
    intros h item Hh. rewrite (call_set_count_matrix _ _ _ _ _ _ Ho). by apply Hcall.
Qed.

Lemma structural_invariant_calls st this o item :
  st !! this = Some o → structural_invariant st this →
  ∀ i, i < N.to_nat (depth_ o) →
    ∃ h c, hash_functions_ o !! i = Some h ∧ call st h item = Ok c ∧ (c < width_ o)%N.
Proof.
  intros Ho (o' & Ho' & Hrows & Hsh & Hhs & Hcall) i Hi. simplify_eq.
  destruct (lookup_lt_is_Some_2 (hash_functions_ o) i) as [h Hh]; [lia|].
  destruct (Hcall h item) as (c & Hc & Hlt); [by eapply list_elem_of_lookup_2|].
  by exists h, c.
Qed.

Lemma Insert_invariant st this item :
  structural_invariant st this →
  ∃ o st', st !! this = Some o ∧ Insert st this item = Ok st' ∧
    st' = <[this := set_count_matrix o
              (bump_rows (λ i, N.to_nat (wrap32 (hashed st o item i))) (count_matrix_ o))]> st ∧
    ∀ a, structural_invariant st a → structural_invariant st' a.
Proof.
  intros Hinv. pose proof Hinv as (o & Ho & Hrows & Hsh & Hhs & Hcall).
  eexists o, _. split; [done|]. split.
  - apply Insert_spec; try done. by apply (structural_invariant_calls st this).
  - split; [done|]. intros a Ha.
    apply structural_invariant_set_count_matrix; try done.
    + apply bump_rows_length.
    + by apply bump_rows_shape.
Qed.

Lemma Count_invariant st this item :
  structural_invariant st this →
  ∃ o, st !! this = Some o ∧ Count st this item = Ok (estimate st o item).
Proof.
  intros (o & Ho & Hrows & Hsh & Hhs & Hcall). exists o. split; [done|].
  apply Count_spec; try done. intros h Hh.
  destruct (Hcall h item Hh) as (c & Hc & _). by exists c.
Qed.

(** On a matrix of zeros the estimate is 0, whatever the hashers. *)
Lemma estimate_zeros st o item :
  count_matrix_ o = zeros (width_ o) (depth_ o) → estimate st o item = 0%N.
Proof.
  intros Hm. unfold estimate. rewrite Hm.
  generalize (seq 0 (N.to_nat (depth_ o))). intros rows.
  assert (∀ acc, acc = UINT32_MAX ∨ acc = 0%N →
    finish (foldl N.min acc
      (omap (contribution (width_ o) (zeros (width_ o) (depth_ o)) (hashed st o item)) rows))
    = 0%N) as H; [|apply H; by left].
  induction rows as [|i rows IH]; intros acc Hacc.
  - by destruct Hacc as [-> | ->].
  - cbn [omap list_omap]. unfold contribution at 1.
    destruct (width_ o <=? hashed st o item i)%N; [by apply IH|].
    rewrite cell_zeros. cbn [foldl]. apply IH. right. lia.
Qed.

Lemma Count_zeros st this o item :
  st !! this = Some o → structural_invariant st this →
  count_matrix_ o = zeros (width_ o) (depth_ o) →
  Count st this item = Ok 0%N.
Proof.
  intros Ho Hinv Hm.
  destruct (Count_invariant st this item Hinv) as (o' & Ho' & ->). simplify_eq.
  by rewrite estimate_zeros.
Qed.

Lemma Count_fresh st this width depth st' item :
  Construct st this width depth = Ok st' → Count st' this item = Ok 0%N.
Proof.
  intros Hc. pose proof (Construct_structural_invariant _ _ _ _ _ Hc) as Hinv.
  apply Construct_inv in Hc as (Hw & Hd & ->).
  eapply Count_zeros; [apply lookup_insert_eq|done..].
Qed.

Lemma Clear_invariant st this :
  structural_invariant st this →
  ∃ o st', st !! this = Some o ∧ Clear st this = Ok st' ∧
    st' = <[this := set_count_matrix o (zeros (width_ o) (depth_ o))]> st ∧
    ∀ a, structural_invariant st a → structural_invariant st' a.
Proof.
  intros Hinv. pose proof Hinv as (o & Ho & Hrows & Hsh & Hhs & Hcall).
  eexists o, _. split; [done|]. split; [by apply Clear_spec|]. split; [done|].
  intros a Ha. apply structural_invariant_set_count_matrix; try done.
  - rewrite zeros_length. lia.
  - apply zeros_shape.
Qed.

Lemma Merge_invariant st this other :
  structural_invariant st this → structural_invariant st other →
  (∃ st', Merge st this other = Ok st' ∧
          ∀ a, structural_invariant st a → structural_invariant st' a)
  ∨ Merge st this other = Throw invalid_argument st.
Proof.
  intros Hthis Hother.
  pose proof Hthis as (t & Ht & Htrows & Htsh & _).
  pose proof Hother as (o & Ho & Horows & Hosh & _).
  destruct (decide (width_ t = width_ o)) as [Hw|Hw];
    [|right; apply (Merge_Throw st this other t o); auto].
  destruct (decide (depth_ t = depth_ o)) as [Hd|Hd];
    [|right; apply (Merge_Throw st this other t o); auto].
  left. eexists. split; [by apply Merge_spec|].
  intros a Ha. apply structural_invariant_set_count_matrix; try done.
  - apply add_rows_length. lia.
  - apply add_rows_shape; [done|]. by rewrite Hw.
Qed.

(** ** Moves *)

Lemma MoveConstruct_spec st this other o :
  st !! other = Some o →
  MoveConstruct st this other
  = Ok (<[other := left_behind o]> (<[this := moved_to this o]> st)).
Proof. intros Ho. unfold MoveConstruct, deref. by rewrite Ho. Qed.

Lemma MoveAssign_spec st this other o :
  this ≠ other → is_Some (st !! this) → st !! other = Some o →
  MoveAssign st this other
  = Ok (<[other := left_behind o]> (<[this := moved_to this o]> st)).
Proof.
  intros Hne [t Ht] Ho. unfold MoveAssign, deref.
  rewrite decide_False by done. by rewrite Ht, Ho.
Qed.

Lemma MoveAssign_self st this : MoveAssign st this this = Ok st.
Proof. unfold MoveAssign. by rewrite decide_True. Qed.

Lemma moved_to_shape this o :
  Forall (λ row, N.of_nat (length row) = width_ (moved_to this o))
         (count_matrix_ (moved_to this o)).
Proof.
  simpl. apply Forall_fmap, Forall_true. intros row. simpl.
  rewrite length_resize. lia.
Qed.

Lemma structural_invariant_width st this o :
  st !! this = Some o → structural_invariant st this →
  KeyType → depth_ o ≠ 0%N → width_ o ≠ 0%N.
Proof.
  intros Ho Hinv item Hd.
  destruct (structural_invariant_calls st this o item Ho Hinv 0) as (h & c & _ & _ & Hlt);
    lia.
Qed.

Lemma moved_to_structural_invariant st this other o :
  this ≠ other → st !! other = Some o → structural_invariant st other →
  structural_invariant (<[other := left_behind o]> (<[this := moved_to this o]> st)) this.
Proof.
  intros Hne Ho Hinv. pose proof Hinv as (o' & Ho' & Hrows & Hsh & Hhs & Hcall).
  simplify_eq.
  eapply (own_hashers_structural_invariant _ this (moved_to this o)).
  - rewrite lookup_insert_ne by done. apply lookup_insert_eq.
  - simpl. by rewrite length_fmap.
  - apply moved_to_shape.
  - done.
  - simpl. by apply (structural_invariant_width st other).
Qed.

(** ** TopK *)

Lemma TopK_loop_spec st this (f : KeyType → N) candidates top_k :
  (∀ c, c ∈ candidates → Count st this c = Ok (f c)) →
  TopK_loop st this candidates top_k = Ok (top_k ++ ((λ c, (c, f c)) <$> candidates)).
Proof.
  revert top_k. induction candidates as [|c cs IH]; intros top_k Hc; simpl.
  - by rewrite app_nil_r.
  - rewrite Hc by (by left). simpl.
    rewrite IH by (intros c' Hc'; apply Hc; by right).
    by rewrite <- app_assoc.
Qed.

Lemma TopK_spec std_sort st this o k candidates :
  st !! this = Some o → structural_invariant st this → k ≠ 0%N →
  TopK std_sort st this k candidates
  = Ok (let top_k := std_sort by_count_desc ((λ c, (c, estimate st o c)) <$> candidates) in
        take (N.to_nat (N.min k (N.of_nat (length top_k)))) top_k).
Proof.
  intros Ho Hinv Hk%N.eqb_neq. unfold TopK. rewrite Hk.
  rewrite (TopK_loop_spec st this (estimate st o)); [done|].
  intros c _. destruct (Count_invariant st this c Hinv) as (o' & Ho' & ->).
  by simplify_eq.
Qed.

Lemma StronglySorted_take {A} (R : relation A) n l :
  StronglySorted R l → StronglySorted R (take n l).
Proof.
  intros H. rewrite <- (take_drop n l) in H. by apply StronglySorted_app_1_l in H.
Qed.

Lemma StronglySorted_weaken {A} (R1 R2 : relation A) l :
  (∀ a b, R1 a b → R2 a b) → StronglySorted R1 l → StronglySorted R2 l.
Proof.
  intros HR. induction 1 as [|a l Hl IH Hall]; constructor; [done|].
  eapply Forall_impl; [exact Hall|]. intros b. apply HR.
Qed.

(** ** A sketch of depth 0 *)

Lemma Insert_depth_0 st this o item :
  st !! this = Some o → depth_ o = 0%N → Insert st this item = Ok st.
Proof. intros Ho Hd. unfold Insert, deref. rewrite Ho. simpl. by rewrite Hd. Qed.

Lemma Count_empty st this o item :
  st !! this = Some o → count_matrix_ o = [] → Count st this item = Ok 0%N.
Proof.
  intros Ho Hm. unfold Count, deref. rewrite Ho. simpl.
  by rewrite bool_decide_true.
Qed.

Lemma Merge_depth_0 st this other t o :
  st !! this = Some t → st !! other = Some o → depth_ t = 0%N →
  Merge st this other
  = if decide (width_ t = width_ o ∧ depth_ o = 0%N) then Ok st
    else Throw invalid_argument st.
Proof.
  intros Ht Ho Hd. unfold Merge, deref. rewrite Ht, Ho. simpl. rewrite Hd.
  destruct (decide (width_ t = width_ o ∧ depth_ o = 0%N)) as [[Hw Hdo]|Hdims].
  - rewrite Hw, Hdo, N.eqb_refl. done.
  - destruct (N.eqb_spec (width_ t) (width_ o)) as [Hw|Hw],
             (N.eqb_spec 0 (depth_ o)) as [Hdo|Hdo]; simpl; try done.
    exfalso. apply Hdims. by split.
Qed.

(** ** Sketches whose hashers are their own *)

Lemma usable_set_count_matrix this o m :
  usable this o → length m = length (count_matrix_ o) →
  Forall (λ row, N.of_nat (length row) = width_ o) m →
  usable this (set_count_matrix o m).
Proof.
  intros (Hw & Hd & Hrows & Hsh & Hhs) Hlen Hshape. unfold usable. simpl.
  split_and!; try done; try lia.
Qed.

Lemma Insert_usable st this o item :
  st !! this = Some o → usable this o →
  Insert st this item
  = Ok (<[this := set_count_matrix o
                    (bump_rows (λ i, N.to_nat (column (width_ o) i item)) (count_matrix_ o))]> st).
Proof.
  intros Ho Hus. pose proof Hus as (Hw & Hd & Hrows & Hsh & Hhs).
  pose proof (usable_structural_invariant st this o Ho Hus) as Hinv.
  destruct (Insert_invariant st this item Hinv) as (o' & st' & Ho' & -> & -> & _).
  rewrite Ho in Ho'. injection Ho' as <-.
  do 3 f_equal. unfold bump_rows. apply imap_ext. intros i row Hrow. simpl.
  assert (i < N.to_nat (depth_ o)) as Hi by (apply lookup_lt_Some in Hrow; lia).
  rewrite (usable_hashed st this) by done.
  rewrite wrap32_small; [done|].
  pose proof (column_lt (width_ o) i item). lia.
Qed.

Lemma InsertAll_usable st this o items :
  st !! this = Some o → usable this o →
  InsertAll st this items
  = Ok (<[this := set_count_matrix o (insert_all (width_ o) items (count_matrix_ o))]> st)
  ∧ usable this (set_count_matrix o (insert_all (width_ o) items (count_matrix_ o))).
Proof.
  revert st o. induction items as [|item items IH]; intros st o Ho Hus.
  - simpl. rewrite set_count_matrix_same. by rewrite insert_id.
  - unfold InsertAll. cbn [for_each].
    rewrite (Insert_usable st this o) by done. simpl.
    set (o1 := set_count_matrix o _).
    assert (usable this o1) as Hus1.
    { apply usable_set_count_matrix; [done|apply bump_rows_length|].
      apply bump_rows_shape. by destruct Hus as (_ & _ & _ & ? & _). }
    destruct (IH (<[this := o1]> st) o1) as [HI Hus']; [apply lookup_insert_eq|done|].
    unfold InsertAll in HI. rewrite HI.
    by rewrite insert_insert_eq.
Qed.

Lemma omap_total {A B} (f : A → option B) (g : A → B) (l : list A) :
  (∀ x, x ∈ l → f x = Some (g x)) → omap f l = g <$> l.
Proof.
  induction l as [|x l IH]; intros H; [done|].
  cbn [omap list_omap fmap list_fmap]. rewrite H by (by left).
  f_equal. apply IH. intros y Hy. apply H. by right.
Qed.

Lemma Count_usable st this o item :
  st !! this = Some o → usable this o →
  Count st this item
  = Ok (finish (foldl N.min UINT32_MAX
                  (hit (width_ o) (count_matrix_ o) item <$> seq 0 (N.to_nat (depth_ o))))).
Proof.
  intros Ho Hus. pose proof Hus as (Hw & Hd & Hrows & Hsh & Hhs).
  pose proof (usable_structural_invariant st this o Ho Hus) as Hinv.
  destruct (Count_invariant st this item Hinv) as (o' & Ho' & ->).
  rewrite Ho in Ho'. injection Ho' as <-.
  unfold estimate. do 3 f_equal. apply omap_total.
  intros i Hi%elem_of_seq. unfold contribution.
  rewrite (usable_hashed st this) by (done || lia).
  pose proof (column_lt (width_ o) i item).
  destruct (N.leb_spec (width_ o) (column (width_ o) i item)); [lia|done].
Qed.

(** ** Counting hits *)

Lemma in_matrix_bump_rows col m i j :
  in_matrix m i j → in_matrix (bump_rows col m) i j.
Proof.
  intros (row & Hrow & Hj). exists (bump (col i) row).
  split; [by apply bump_rows_lookup|]. by rewrite bump_length.
Qed.

Lemma cell_bump_rows col m i j :
  in_matrix m i j →
  cell (bump_rows col m) i j
  = if decide (col i = j) then wrap32 (cell m i j + 1) else cell m i j.
Proof.
  intros (row & Hrow & Hj). unfold cell.
  rewrite (bump_rows_lookup _ _ _ _ Hrow), Hrow. simpl. unfold bump.
  case_decide as Hcol.
  - subst j. by rewrite list_lookup_insert_eq.
  - by rewrite list_lookup_insert_ne.
Qed.

Lemma hits_cons width i j item items :
  hits width i j (item :: items)
  = ((if decide (N.to_nat (column width i item) = j) then 1 else 0)
     + hits width i j items)%N.
Proof.
  unfold hits. rewrite filter_cons. case_decide; simpl; lia.
Qed.

Lemma cell_insert_all width items m i j :
  in_matrix m i j → (cell m i j < 4294967296)%N →
  cell (insert_all width items m) i j = wrap32 (cell m i j + hits width i j items).
Proof.
  revert m. induction items as [|item items IH]; intros m Hin Hlt.
  - simpl. unfold hits. simpl. rewrite N.add_0_r. by rewrite wrap32_small.
  - unfold insert_all. cbn [foldl].
    set (m1 := bump_rows _ m).
    assert (cell m1 i j
            = if decide (N.to_nat (column width i item) = j)
              then wrap32 (cell m i j + 1) else cell m i j) as Hm1
      by (by apply cell_bump_rows).
    pose proof (IH m1) as IH'. unfold insert_all in IH'. rewrite IH'.
    + rewrite Hm1, hits_cons. case_decide.
      * rewrite wrap32_add_l. f_equal. lia.
      * f_equal.
    + by apply in_matrix_bump_rows.
    + rewrite Hm1. case_decide; [apply wrap32_lt|done].
Qed.

Lemma in_matrix_zeros width depth i j :
  i < N.to_nat depth → j < N.to_nat width → in_matrix (zeros width depth) i j.
Proof.
  intros Hi Hj. exists (replicate (N.to_nat width) 0%N).
  split; [by apply zeros_lookup|]. by rewrite length_replicate.
Qed.

Lemma cell_insert_all_zeros width depth items i j :
  i < N.to_nat depth → j < N.to_nat width →
  cell (insert_all width items (zeros width depth)) i j = wrap32 (hits width i j items).
Proof.
  intros Hi Hj. rewrite cell_insert_all.
  - by rewrite cell_zeros.
  - by apply in_matrix_zeros.
  - by rewrite cell_zeros.
Qed.

Lemma hits_le_length width i j items : (hits width i j items ≤ N.of_nat (length items))%N.
Proof. unfold hits. pose proof (length_filter (λ y, N.to_nat (column width i y) = j) items). lia. Qed.

Lemma foldl_min_lower (lo acc : N) cs :
  (lo ≤ acc)%N → Forall (λ c, (lo ≤ c)%N) cs → (lo ≤ foldl N.min acc cs)%N.
Proof.
  revert acc. induction cs as [|c cs IH]; intros acc Hacc Hcs; [done|].
  apply Forall_cons in Hcs as [Hc Hcs]. simpl. apply IH; [lia|done].
Qed.

Lemma foldl_min_le_acc (acc : N) cs : (foldl N.min acc cs ≤ acc)%N.
Proof.
  revert acc. induction cs as [|c cs IH]; intros acc; [done|]. simpl.
  specialize (IH (N.min acc c)). lia.
Qed.

Lemma foldl_min_upper (acc : N) c cs : c ∈ cs → (foldl N.min acc cs ≤ c)%N.
Proof.
  revert acc. induction cs as [|c' cs IH]; intros acc Hc; [by apply elem_of_nil in Hc|].
  simpl. apply elem_of_cons in Hc as [<-|Hc].
  - pose proof (foldl_min_le_acc (N.min acc c) cs). lia.
  - by apply IH.
Qed.

Lemma occurrences_le_hits width i x items :
  (occurrences x items ≤ hits width i (N.to_nat (column width i x)) items)%N.
Proof.
  unfold occurrences, hits.
  induction items as [|y items IH]; [done|].
  rewrite !filter_cons. repeat case_decide; simpl; subst; try done; lia.
Qed.

Lemma Construct_usable st this width depth :
  (0 < width < 4294967296)%N → (0 < depth)%N →
  ∃ o, Construct st this width depth = Ok (<[this := o]> st) ∧ usable this o ∧
       width_ o = width ∧ depth_ o = depth ∧ count_matrix_ o = zeros width depth.
Proof.
  intros Hw Hd. eexists. split; [apply Construct_Ok; lia|].
  split; [by apply usable_fresh|done].
Qed.

(** What [Count] returns after building a sketch and inserting [items]. *)
Lemma Count_after_inserts st this width depth items :
  (0 < width < 4294967296)%N → (0 < depth)%N →
  ∃ st0 st1, Construct st this width depth = Ok st0 ∧ InsertAll st0 this items = Ok st1 ∧
    ∀ x, Count st1 this x
         = Ok (finish (foldl N.min UINT32_MAX
                 ((λ i, wrap32 (hits width i (N.to_nat (column width i x)) items))
                  <$> seq 0 (N.to_nat depth)))).
Proof.
  intros Hw Hd.
  destruct (Construct_usable st this width depth Hw Hd) as (o & HC & Hus & Hwo & Hdo & Hm).
  destruct (InsertAll_usable (<[this := o]> st) this o items) as [HI Hus1];
    [apply lookup_insert_eq|done|].
  eexists _, _. split; [exact HC|]. split; [exact HI|].
  intros x. rewrite insert_insert_eq.
  erewrite Count_usable; [|apply lookup_insert_eq|done]. simpl.
  rewrite Hwo, Hdo, Hm. do 3 f_equal.
  apply list_fmap_ext. intros k i Hi. apply lookup_seq in Hi as [-> Hi]. simpl.
  unfold hit. apply cell_insert_all_zeros; [done|].
  assert (column width k x < width)%N by (apply column_lt; lia). lia.
Qed.

(** ** The claims *)

(** C1 (as amended).  Build a sketch of positive width and depth and
    insert a sequence of fewer than [UINT32_MAX] items: then [Count] of
    any key returns at least the number of times that key occurs in
    the sequence. *)
Theorem no_under_estimation (st : gmap positive CountMinSketch) (this : positive)
    (width depth : N) (items : list KeyType) (x : KeyType) :
  (0 < width < 4294967296)%N → (0 < depth)%N →
  (N.of_nat (length items) < UINT32_MAX)%N →
  ∃ st0 st1 v, Construct st this width depth = Ok st0 ∧
    InsertAll st0 this items = Ok st1 ∧
    Count st1 this x = Ok v ∧ (occurrences x items ≤ v)%N.
Proof.
  intros Hw Hd Hlen.
  destruct (Count_after_inserts st this width depth items Hw Hd)
    as (st0 & st1 & HC & HI & HCount).
  eexists st0, st1, _. split; [done|]. split; [done|]. split; [apply HCount|].
  set (cs := (λ i, wrap32 (hits width i (N.to_nat (column width i x)) items))
             <$> seq 0 (N.to_nat depth)).
  assert (∀ i, wrap32 (hits width i (N.to_nat (column width i x)) items)
               = hits width i (N.to_nat (column width i x)) items) as Hwrap.
  { intros i. apply wrap32_small.
    pose proof (hits_le_length width i (N.to_nat (column width i x)) items).
    unfold UINT32_MAX in Hlen. lia. }
  assert ((foldl N.min UINT32_MAX cs < UINT32_MAX)%N) as Hsmall.
  { pose proof (foldl_min_upper UINT32_MAX
                  (wrap32 (hits width 0 (N.to_nat (column width 0 x)) items)) cs) as Hup.
    pose proof (hits_le_length width 0 (N.to_nat (column width 0 x)) items).
    rewrite Hwrap in Hup. 
    assert (hits width 0 (N.to_nat (column width 0 x)) items ∈ cs) as Hin.
    { subst cs. apply list_elem_of_fmap. exists 0. split; [by rewrite Hwrap|].
      apply elem_of_seq. lia. }
    specialize (Hup Hin). lia. }
  rewrite finish_small by done.
  apply foldl_min_lower.
  - pose proof (length_filter (λ y, y = x) items). unfold occurrences. lia.
  - subst cs. apply Forall_fmap, Forall_true. intros i. simpl. rewrite Hwrap.
    apply occurrences_le_hits.
Qed.

(** C2 (as amended).  For sketches whose matrices have their declared
    shape, [Merge] throws [invalid_argument] exactly when the widths or
    the depths differ, and the store at the [throw] is the store of the
    call.  With equal dimensions it returns: every counter of [this]
    becomes its sum with the counter of [other] at the same place
    (wrapped to 32 bits), the shape, [width_], [depth_] and hashers of
    [this] stay, every other object is untouched, and so is [other]
    when it is not [this] itself. *)
Theorem merge_guard (st : gmap positive CountMinSketch) (this other : positive)
    (t o : CountMinSketch) :
  st !! this = Some t → st !! other = Some o →
  N.of_nat (length (count_matrix_ t)) = depth_ t →
  Forall (λ row, N.of_nat (length row) = width_ t) (count_matrix_ t) →
  N.of_nat (length (count_matrix_ o)) = depth_ o →
  Forall (λ row, N.of_nat (length row) = width_ o) (count_matrix_ o) →
  (Merge st this other = Throw invalid_argument st
   ↔ width_ t ≠ width_ o ∨ depth_ t ≠ depth_ o) ∧
  (width_ t = width_ o → depth_ t = depth_ o →
   ∃ st' t', Merge st this other = Ok st' ∧ st' !! this = Some t' ∧
     width_ t' = width_ t ∧ depth_ t' = depth_ t ∧
     hash_functions_ t' = hash_functions_ t ∧
     N.of_nat (length (count_matrix_ t')) = depth_ t ∧
     Forall (λ row, N.of_nat (length row) = width_ t) (count_matrix_ t') ∧
     (∀ i j a b,
        count_matrix_ t !! i ≫= (.!! j) = Some a →
        count_matrix_ o !! i ≫= (.!! j) = Some b →
        count_matrix_ t' !! i ≫= (.!! j) = Some (wrap32 (a + b))) ∧
     (this ≠ other → st' !! other = Some o) ∧
     ∀ a, a ≠ this → st' !! a = st !! a).
Proof.
  intros Ht Ho Htrows Htsh Horows Hosh.
  assert (width_ t = width_ o → depth_ t = depth_ o →
          Merge st this other
          = Ok (<[this := set_count_matrix t
                            (add_rows (count_matrix_ t) (count_matrix_ o))]> st)) as HOk
    by (intros; by apply Merge_spec).
  split.
  - split; [|by apply Merge_Throw].
    intros HThrow.
    destruct (decide (width_ t = width_ o)) as [Hw|Hw]; [|by left].
    destruct (decide (depth_ t = depth_ o)) as [Hd|Hd]; [|by right].
    rewrite HOk in HThrow by done. done.
  - intros Hw Hd. eexists _, _. split; [by apply HOk|].
    split; [apply lookup_insert_eq|]. simpl. split_and!; try done.
    + rewrite add_rows_length; lia.
    + apply add_rows_shape; [done|]. by rewrite Hw.
    + intros i j a b. apply lookup_cell_add_rows.
    + intros Hne. by rewrite lookup_insert_ne.
    + intros a Ha. by rewrite lookup_insert_ne.
Qed.

(** C3 (as amended).  In every state of a sketch, consistent or not,
    [Count] never indexes a vector past its end and never throws.  It
    returns a value unless the hasher call of a row it visits has no
    value, because the sketch the hasher captured is gone or has
    [width_] 0, so that the hasher takes a remainder by zero: then
    [Count] has that undefined behaviour, that of the first such call.
    It returns 0 when the matrix is empty or the number of rows or of
    hashers differs from [depth_].  Otherwise it visits the rows in
    order and calls the hasher of each row of length [width_].  At the
    first row whose length differs from [width_] it stops and returns
    the first counter of that row, or 0 if the row is empty: it does not
    skip the row.  When every row has length [width_] and every hasher
    call returns, it skips the rows whose computed column is not below
    [width_] and returns the minimum over the others, or 0 when there is
    none: the estimate that skips malformed rows, as long as that one is
    below [UINT32_MAX]. *)
Theorem count_defensive (st : gmap positive CountMinSketch) (this : positive)
    (o : CountMinSketch) (item : KeyType) :
  st !! this = Some o →
  Count st this item ≠ Undefined OutOfRange ∧
  (∀ e st', Count st this item ≠ Throw e st') ∧
  (∀ f, Count st this item = Undefined f →
     (f = DivideByZero ∨ f = Dangling) ∧
     ∃ k row h, k < N.to_nat (depth_ o) ∧ count_matrix_ o !! k = Some row ∧
       N.of_nat (length row) = width_ o ∧
       hash_functions_ o !! k = Some h ∧ call st h item = Undefined f) ∧
  (count_matrix_ o = [] ∨ N.of_nat (length (count_matrix_ o)) ≠ depth_ o
   ∨ N.of_nat (length (hash_functions_ o)) ≠ depth_ o →
   Count st this item = Ok 0%N) ∧
  (N.of_nat (length (count_matrix_ o)) = depth_ o →
   N.of_nat (length (hash_functions_ o)) = depth_ o →
   ∀ k row, count_matrix_ o !! k = Some row → N.of_nat (length row) ≠ width_ o →
     (∀ i, i < k → row_ready st o item i) →
     Count st this item = Ok (default 0%N (head row))) ∧
  (N.of_nat (length (count_matrix_ o)) = depth_ o →
   N.of_nat (length (hash_functions_ o)) = depth_ o →
   ∀ k row h f, count_matrix_ o !! k = Some row → N.of_nat (length row) = width_ o →
     hash_functions_ o !! k = Some h → call st h item = Undefined f →
     (∀ i, i < k → row_ready st o item i) →
     Count st this item = Undefined f) ∧
  (N.of_nat (length (count_matrix_ o)) = depth_ o →
   N.of_nat (length (hash_functions_ o)) = depth_ o →
   (∀ i, i < N.to_nat (depth_ o) → row_ready st o item i) →
   ∀ v, Count_skipping st this item = Ok v → (v < UINT32_MAX)%N →
     Count st this item = Ok v).
Proof.
  intros Ho. split; [apply Count_in_range|].
  split; [intros e st'; apply Count_never_throws|]. split_and!.
  - intros f. unfold Count, deref. rewrite Ho. simpl.
    destruct (N.eqb_spec (N.of_nat (length (count_matrix_ o))) (depth_ o))
      as [Hrows|Hrows]; simpl; [|by rewrite orb_true_r].
    destruct (N.eqb_spec (N.of_nat (length (hash_functions_ o))) (depth_ o))
      as [Hhs|Hhs]; simpl; [|by rewrite orb_true_r].
    rewrite orb_false_r. case_bool_decide as Hempty; [done|]. intros Hu.
    apply Count_loop_undefined in Hu.
    + destruct Hu as (k & row & h & Hk%elem_of_seq & Hrow & Hlen & Hh & Hc).
      split; [by apply (call_fault st h item)|].
      exists k, row, h. split; [lia|done].
    + intros i Hi%elem_of_seq. lia.
  - intros Hbad. unfold Count, deref. rewrite Ho. simpl.
    destruct Hbad as [Hempty|[Hrows|Hhs]].
    + by rewrite bool_decide_true.
    + apply N.eqb_neq in Hrows as ->. simpl. by rewrite orb_true_r.
    + apply N.eqb_neq in Hhs as ->. simpl. by rewrite orb_true_r.
  - intros Hrows Hhs k row Hrow Hlen Hready.
    assert (k < N.to_nat (depth_ o)) as Hk
      by (apply lookup_lt_Some in Hrow; lia).
    unfold Count, deref. rewrite Ho. simpl.
    apply N.eqb_eq in Hrows as Hrowsb. apply N.eqb_eq in Hhs as Hhsb.
    rewrite Hrowsb, Hhsb. simpl. rewrite orb_false_r.
    rewrite bool_decide_false by (intros Hempty; by rewrite Hempty in Hrow).
    rewrite (seq_split_at k) by done.
    apply Count_loop_stops; try done.
    intros i Hi%elem_of_seq. apply Hready. lia.
  - intros Hrows Hhs k row h f Hrow Hlen Hh Hc Hready.
    assert (k < N.to_nat (depth_ o)) as Hk
      by (apply lookup_lt_Some in Hrow; lia).
    unfold Count, deref. rewrite Ho. simpl.
    apply N.eqb_eq in Hrows as Hrowsb. apply N.eqb_eq in Hhs as Hhsb.
    rewrite Hrowsb, Hhsb. simpl. rewrite orb_false_r.
    rewrite bool_decide_false by (intros Hempty; by rewrite Hempty in Hrow).
    rewrite (seq_split_at k) by done.
    apply (Count_loop_faults _ _ _ _ _ _ row h); try done.
    intros i Hi%elem_of_seq. apply Hready. lia.
  - intros Hrows Hhs Hready v Hskip Hv.
    assert (∀ i, i ∈ seq 0 (N.to_nat (depth_ o)) → row_ready st o item i) as Hready'
      by (intros i Hi%elem_of_seq; apply Hready; lia).
    revert Hskip. unfold Count_skipping, Count, deref. rewrite Ho. simpl.
    apply N.eqb_eq in Hrows as Hrowsb. apply N.eqb_eq in Hhs as Hhsb.
    rewrite Hrowsb, Hhsb. simpl. rewrite orb_false_r.
    rewrite Count_skipping_loop_spec by done. intros [= Hskip].
    case_bool_decide as Hempty.
    + rewrite <- Hrows, Hempty in Hskip. simpl in Hskip. by rewrite Hskip.
    + rewrite Count_loop_spec by done. f_equal.
      by apply (finish_min_option _ _ None).
Qed.

(** C4 (as amended).  A move construction at [dst] from the sketch at [src],
    or a move assignment to a sketch at [dst ≠ src], returns and leaves at
    [dst] the width and depth of [src], the rows of [src] each truncated or
    padded with zeros to that width, and one hasher per row made by
    [HashFunction] with [dst] as the captured owner, which reduces
    modulo the width now stored at [dst].  At [src] it leaves
    width 0, depth 0 and an empty matrix, but the hashers [src] had are
    still stored there.  On what is left at [src], [Insert] changes
    nothing, [Count] returns 0, and [Merge] with any sketch (as either
    operand) changes nothing when that sketch is 0 by 0 too and throws
    otherwise. *)
Theorem move_transfers (st : gmap positive CountMinSketch) (src dst : positive)
    (o : CountMinSketch) :
  st !! src = Some o → dst ≠ src →
  ∃ st' t s,
    MoveConstruct st dst src = Ok st' ∧
    (is_Some (st !! dst) → MoveAssign st dst src = Ok st') ∧
    st' !! dst = Some t ∧ st' !! src = Some s ∧
    width_ t = width_ o ∧ depth_ t = depth_ o ∧
    length (count_matrix_ t) = length (count_matrix_ o) ∧
    (∀ i row, count_matrix_ o !! i = Some row →
       count_matrix_ t !! i
       = Some (take (N.to_nat (width_ t)) row
               ++ replicate (N.to_nat (width_ t) - length row) 0%N)) ∧
    Forall (λ row, N.of_nat (length row) = width_ t) (count_matrix_ t) ∧
    hash_functions_ t = (λ i, HashFunction dst (N.of_nat i)) <$> seq 0 (N.to_nat (depth_ t)) ∧
    (width_ t ≠ 0%N → ∀ i h item, hash_functions_ t !! i = Some h →
       call st' h item
       = Ok (CombineHashes (std_hash item)
               (CombineHashes (N.of_nat i) SEED_BASE) mod width_ t)%N) ∧
    width_ s = 0%N ∧ depth_ s = 0%N ∧ count_matrix_ s = [] ∧
    hash_functions_ s = hash_functions_ o ∧
    (∀ item, Insert st' src item = Ok st') ∧
    (∀ item, Count st' src item = Ok 0%N) ∧
    (∀ X x, st' !! X = Some x →
       Merge st' src X = (if decide (width_ x = 0%N ∧ depth_ x = 0%N) then Ok st'
                        else Throw invalid_argument st') ∧
       Merge st' X src = (if decide (width_ x = 0%N ∧ depth_ x = 0%N) then Ok st'
                        else Throw invalid_argument st')).
Proof.
  intros Ho Hne.
  exists (<[src := left_behind o]> (<[dst := moved_to dst o]> st)), (moved_to dst o), (left_behind o).
  assert ((<[src := left_behind o]> (<[dst := moved_to dst o]> st)) !! src = Some (left_behind o))
    as HS by apply lookup_insert_eq.
  split_and!; try done.
  - by apply MoveConstruct_spec.
  - intros HT. by apply MoveAssign_spec.
  - rewrite lookup_insert_ne by done. apply lookup_insert_eq.
  - simpl. by rewrite length_fmap.
  - intros i row Hrow. simpl. rewrite list_lookup_fmap, Hrow. simpl.
    by rewrite resize_spec.
  - apply moved_to_shape.
  - simpl. apply push_hashers_spec.
  - intros Hw i h item Hh. simpl in Hh.
    assert (i < N.to_nat (depth_ o)) as Hi
      by (apply lookup_lt_Some in Hh; by rewrite push_hashers_length in Hh).
    rewrite push_hashers_lookup in Hh by done. injection Hh as <-.
    rewrite (call_eq _ _ (moved_to dst o)); [done| |done].
    simpl. rewrite lookup_insert_ne by done. apply lookup_insert_eq.
  - intros item. by apply (Insert_depth_0 _ _ (left_behind o)).
  - intros item. by apply (Count_empty _ _ (left_behind o)).
  - intros X x HX. split.
    + rewrite (Merge_depth_0 _ src X (left_behind o) x) by done. simpl.
      destruct (decide (width_ x = 0%N ∧ depth_ x = 0%N)) as [[Hw Hd]|Hdims].
      * rewrite decide_True; done.
      * rewrite decide_False; [done|]. intros [Hw Hd]. by apply Hdims.
    + destruct (decide (width_ x = 0%N ∧ depth_ x = 0%N)) as [[Hw Hd]|Hdims].
      * rewrite (Merge_depth_0 _ X src x (left_behind o)) by done. simpl.
        rewrite decide_True; done.
      * apply (Merge_Throw _ X src x (left_behind o)); try done. simpl.
        destruct (decide (width_ x = 0%N)) as [Hw|Hw]; [right|by left].
        intros Hd. by apply Hdims.
Qed.

(** C5.  On a sketch that satisfies the invariant, [Clear] returns and
    leaves at [this] a matrix of [depth_] rows of [width_] zeros, with
    [width_], [depth_] and the hashers as they were and every other
    object untouched; the sketch can still be merged with any sketch of
    its dimensions; and [Count] of any item is 0 after [Clear], as it is
    right after construction. *)
Theorem clear_resets :
  (∀ (st : gmap positive CountMinSketch) (this : positive),
     structural_invariant st this →
     ∃ o st' o', st !! this = Some o ∧ Clear st this = Ok st' ∧ st' !! this = Some o' ∧
       count_matrix_ o'
       = replicate (N.to_nat (depth_ o)) (replicate (N.to_nat (width_ o)) 0%N) ∧
       width_ o' = width_ o ∧ depth_ o' = depth_ o ∧
       hash_functions_ o' = hash_functions_ o ∧
       (∀ a, a ≠ this → st' !! a = st !! a) ∧
       (∀ other o2, st' !! other = Some o2 →
          N.of_nat (length (count_matrix_ o2)) = depth_ o2 →
          Forall (λ row, N.of_nat (length row) = width_ o2) (count_matrix_ o2) →
          width_ o2 = width_ o → depth_ o2 = depth_ o →
          ∃ st'', Merge st' this other = Ok st'') ∧
       ∀ x, Count st' this x = Ok 0%N) ∧
  (∀ (st : gmap positive CountMinSketch) (this : positive) (width depth : N) st' x,
     Construct st this width depth = Ok st' → Count st' this x = Ok 0%N).
Proof.
  split; [|intros; by eapply Count_fresh].
  intros st this Hinv.
  destruct (Clear_invariant st this Hinv) as (o & st' & Ho & HClear & -> & Hpres).
  eexists o, _, (set_count_matrix o (zeros (width_ o) (depth_ o))).
  split; [done|]. split; [done|]. split; [apply lookup_insert_eq|]. simpl.
  split_and!; try done.
  - intros a Ha. by rewrite lookup_insert_ne.
  - intros other o2 Ho2 Hrows2 Hsh2 Hw Hd. eexists.
    eapply (Merge_spec _ this other _ o2);
      [apply lookup_insert_eq|exact Ho2|simpl..]; try done.
    + rewrite zeros_length. lia.
    + apply zeros_shape.
  - intros x. eapply Count_zeros; [apply lookup_insert_eq|by apply Hpres|done].
Qed.

(** C6.  With [std::sort] meeting its contract, [TopK] on a sketch that
    satisfies the invariant returns a list of exactly
    [min(k, candidates.size())] pairs, in descending order of the
    estimates, each pairing one of the candidates with the value
    [Count] returns for it; for [k = 0] the list is empty. *)
Theorem topk_contract
    (std_sort : (KeyType * N → KeyType * N → bool) → list (KeyType * N) → list (KeyType * N))
    (st : gmap positive CountMinSketch) (this : positive) (k : N)
    (candidates : list KeyType) :
  (∀ l, sorted_by by_count_desc l (std_sort by_count_desc l)) →
  structural_invariant st this →
  ∃ result, TopK std_sort st this k candidates = Ok result ∧
    length result = N.to_nat k `min` length candidates ∧
    StronglySorted (λ a b, (b.2 ≤ a.2)%N) result ∧
    (∀ c e, (c, e) ∈ result → c ∈ candidates ∧ Count st this c = Ok e) ∧
    (k = 0%N → result = []).
Proof.
  intros Hsort Hinv. pose proof Hinv as (o & Ho & _).
  destruct (decide (k = 0%N)) as [->|Hk].
  - exists []. unfold TopK. simpl. split_and!; try done.
    + constructor.
    + intros c e H. by apply elem_of_nil in H.
  - rewrite (TopK_spec std_sort st this o) by done. cbv zeta.
    set (pairs := (λ c, (c, estimate st o c)) <$> candidates).
    destruct (Hsort pairs) as [Hperm Hsorted].
    set (sorted := std_sort by_count_desc pairs) in *.
    assert (length sorted = length candidates) as Hlen.
    { rewrite Hperm. subst pairs. by rewrite length_fmap. }
    eexists. split; [done|]. split_and!.
    + rewrite length_take, Hlen. lia.
    + apply StronglySorted_take.
      eapply StronglySorted_weaken; [|exact Hsorted].
      intros a b Hab. simpl in Hab. unfold by_count_desc in Hab.
      by apply N.ltb_ge in Hab.
    + intros c e Hin. apply subseteq_take in Hin. rewrite Hperm in Hin.
      subst pairs. apply list_elem_of_fmap in Hin as (c' & [= -> ->] & Hc').
      split; [done|].
      destruct (Count_invariant st this c' Hinv) as (o' & Ho' & ->). by simplify_eq.
    + done.
Qed.

(** C7.  Construction throws [invalid_argument] exactly when [width] or
    [depth] is zero, leaving the store as it was; with both positive it
    builds at [this] a sketch of that width and depth whose matrix is
    [depth] rows of [width] zeros, with [depth] hashers, the one of row
    [i] seeded by [i] and returning
    [CombineHashes(hash(item), CombineHashes(i, SEED_BASE)) % width],
    and on which [Count] of any item is 0. *)
Theorem construction_guard (st : gmap positive CountMinSketch) (this : positive)
    (width depth : N) :
  (Construct st this width depth = Throw invalid_argument st
   ↔ width = 0%N ∨ depth = 0%N) ∧
  ((0 < width)%N → (0 < depth)%N →
   ∃ st' o, Construct st this width depth = Ok st' ∧ st' !! this = Some o ∧
     width_ o = width ∧ depth_ o = depth ∧
     count_matrix_ o = replicate (N.to_nat depth) (replicate (N.to_nat width) 0%N) ∧
     length (hash_functions_ o) = N.to_nat depth ∧
     (∀ i, i < N.to_nat depth →
        ∃ h, hash_functions_ o !! i = Some h ∧ seed h = N.of_nat i ∧
          ∀ item, call st' h item
                  = Ok (CombineHashes (std_hash item)
                          (CombineHashes (N.of_nat i) SEED_BASE) mod width)%N) ∧
     ∀ item, Count st' this item = Ok 0%N).
Proof.
  split.
  - split; [|apply Construct_Throw].
    unfold Construct.
    destruct (N.eqb_spec width 0), (N.eqb_spec depth 0); simpl; auto; done.
  - intros Hw Hd.
    assert (Construct st this width depth
            = Ok (<[this := MkSketch width depth (push_hashers this depth [])
                              (zeros width depth)]> st)) as Hc
      by (apply Construct_Ok; lia).
    eexists _, _. split; [exact Hc|]. split; [apply lookup_insert_eq|]. simpl.
    split_and!; try done.
    + apply push_hashers_length.
    + intros i Hi. eexists. split; [by apply push_hashers_lookup|]. split; [done|].
      intros item. erewrite call_eq; cycle 1; [apply lookup_insert_eq|simpl; lia|done].
    + intros item. by eapply Count_fresh.
Qed.

(** C8 (as amended).  The invariant (as many rows and hashers as
    [depth_], rows of [width_] counters, every hasher returning a column
    below [width_]) holds of a newly constructed sketch; [Insert],
    [Merge] and [Clear] on sketches that satisfy it return (or, for
    [Merge], throw with the store unchanged) and keep it for every
    object of the store; [Count] and [TopK] return a value and write
    nothing; and after a move construction or move assignment from a
    sketch that satisfies it, the new owner satisfies it. *)
Theorem structural_invariant_preserved :
  (∀ (st : gmap positive CountMinSketch) this width depth st',
     Construct st this width depth = Ok st' → structural_invariant st' this) ∧
  (∀ (st : gmap positive CountMinSketch) this item,
     structural_invariant st this →
     ∃ st', Insert st this item = Ok st' ∧
            ∀ a, structural_invariant st a → structural_invariant st' a) ∧
  (∀ (st : gmap positive CountMinSketch) this item,
     structural_invariant st this → ∃ v, Count st this item = Ok v) ∧
  (∀ (st : gmap positive CountMinSketch) this other,
     structural_invariant st this → structural_invariant st other →
     (∃ st', Merge st this other = Ok st' ∧
             ∀ a, structural_invariant st a → structural_invariant st' a)
     ∨ Merge st this other = Throw invalid_argument st) ∧
  (∀ (st : gmap positive CountMinSketch) this,
     structural_invariant st this →
     ∃ st', Clear st this = Ok st' ∧
            ∀ a, structural_invariant st a → structural_invariant st' a) ∧
  (∀ std_sort (st : gmap positive CountMinSketch) this k candidates,
     structural_invariant st this →
     ∃ result, TopK std_sort st this k candidates = Ok result) ∧
  (∀ (st : gmap positive CountMinSketch) this other,
     this ≠ other → structural_invariant st other →
     ∃ st', MoveConstruct st this other = Ok st' ∧ structural_invariant st' this) ∧
  (∀ (st : gmap positive CountMinSketch) this other,
     is_Some (st !! this) → structural_invariant st other →
     ∃ st', MoveAssign st this other = Ok st' ∧ structural_invariant st' this).
Proof.
  split_and!.
  - apply Construct_structural_invariant.
  - intros st this item Hinv.
    destruct (Insert_invariant st this item Hinv) as (o & st' & _ & HI & _ & Hpres).
    by exists st'.
  - intros st this item Hinv.
    destruct (Count_invariant st this item Hinv) as (o & _ & ->). by eexists.
  - apply Merge_invariant.
  - intros st this Hinv.
    destruct (Clear_invariant st this Hinv) as (o & st' & _ & HC & _ & Hpres).
    by exists st'.
  - intros std_sort st this k candidates Hinv. pose proof Hinv as (o & Ho & _).
    destruct (decide (k = 0%N)) as [->|Hk]; [by exists []|].
    rewrite (TopK_spec std_sort st this o) by done. by eexists.
  - intros st this other Hne Hinv. pose proof Hinv as (o & Ho & _).
    rewrite (MoveConstruct_spec st this other o) by done.
    eexists. split; [done|]. by apply moved_to_structural_invariant.
  - intros st this other Hthis Hinv. pose proof Hinv as (o & Ho & _).
    destruct (decide (this = other)) as [<-|Hne].
    + rewrite MoveAssign_self. by exists st.
    + rewrite (MoveAssign_spec st this other o) by done.
      eexists. split; [done|]. by apply moved_to_structural_invariant.
Qed.

(** C10.  Two sketches built with the same width and depth, at any two
    addresses of any two stores: the hashers of row [i] of both return,
    on every key, the same column
    [CombineHashes(hash(key), CombineHashes(i, SEED_BASE)) % width];
    and after the same sequence of insertions [Count] returns the same
    value on both, for every key. *)
Theorem hash_determinism (st1 st2 : gmap positive CountMinSketch) (a b : positive)
    (width depth : N) :
  (0 < width < 4294967296)%N → (0 < depth)%N →
  ∃ s1 s2 oa ob,
    Construct st1 a width depth = Ok s1 ∧ Construct st2 b width depth = Ok s2 ∧
    s1 !! a = Some oa ∧ s2 !! b = Some ob ∧
    (∀ i, i < N.to_nat depth →
       ∃ ha hb, hash_functions_ oa !! i = Some ha ∧ hash_functions_ ob !! i = Some hb ∧
         ∀ key,
           call s1 ha key
           = Ok (CombineHashes (std_hash key)
                   (CombineHashes (N.of_nat i) SEED_BASE) mod width)%N ∧
           call s2 hb key = call s1 ha key) ∧
    ∀ items, ∃ s1' s2' : gmap positive CountMinSketch,
      InsertAll s1 a items = Ok s1' ∧ InsertAll s2 b items = Ok s2' ∧
      ∀ x, ∃ v, Count s1' a x = Ok v ∧ Count s2' b x = Ok v.
Proof.
  intros Hw Hd.
  assert (width ≠ 0%N) as Hw0 by lia. assert (depth ≠ 0%N) as Hd0 by lia.
  eexists _, _, _, _.
  split; [by apply Construct_Ok|]. split; [by apply Construct_Ok|].
  split; [apply lookup_insert_eq|]. split; [apply lookup_insert_eq|]. simpl.
  split.
  - intros i Hi. eexists _, _.
    split; [by apply push_hashers_lookup|]. split; [by apply push_hashers_lookup|].
    intros key.
    erewrite !call_eq; cycle 1;
      [apply lookup_insert_eq|done|apply lookup_insert_eq|done|done].
  - intros items.
    destruct (Count_after_inserts st1 a width depth items Hw Hd)
      as (s1 & s1' & HC1 & HI1 & HCount1).
    destruct (Count_after_inserts st2 b width depth items Hw Hd)
      as (s2 & s2' & HC2 & HI2 & HCount2).
    rewrite Construct_Ok in HC1, HC2 by done.
    injection HC1 as <-. injection HC2 as <-.
    exists s1', s2'. split; [done|]. split; [done|].
    intros x. eexists. split; [apply HCount1|apply HCount2].
Qed.

(** ** Further properties of the operations *)

Lemma matrix_eq (w : N) (m1 m2 : list (list N)) :
  length m1 = length m2 →
  Forall (λ row, N.of_nat (length row) = w) m1 →
  Forall (λ row, N.of_nat (length row) = w) m2 →
  (∀ i j, in_matrix m1 i j → cell m1 i j = cell m2 i j) →
  m1 = m2.
Proof.
  intros Hlen Hsh1 Hsh2 Hcell.
  apply (list_eq_same_length _ _ (length m2)); [done|done|].
  intros i row1 row2 Hi Hrow1 Hrow2.
  assert (N.of_nat (length row1) = w) as Hl1
    by (by eapply (proj1 (Forall_lookup _ _) Hsh1)).
  assert (N.of_nat (length row2) = w) as Hl2
    by (by eapply (proj1 (Forall_lookup _ _) Hsh2)).
  apply (list_eq_same_length _ _ (length row2)); [done|lia|].
  intros j c1 c2 Hj Hc1 Hc2.
  specialize (Hcell i j). unfold cell in Hcell.
  rewrite Hrow1, Hrow2 in Hcell. simpl in Hcell. rewrite Hc1, Hc2 in Hcell.
  apply Hcell. exists row1. split; [done|lia].
Qed.

Lemma insert_all_length width items m : length (insert_all width items m) = length m.
Proof.
  revert m. induction items as [|item items IH]; intros m; [done|].
  unfold insert_all. cbn [foldl]. pose proof (IH (bump_rows
    (λ i, N.to_nat (column width i item)) m)) as IH'.
  unfold insert_all in IH'. rewrite IH'. apply bump_rows_length.
Qed.

Lemma insert_all_shape width items m (w : N) :
  Forall (λ row, N.of_nat (length row) = w) m →
  Forall (λ row, N.of_nat (length row) = w) (insert_all width items m).
Proof.
  revert m. induction items as [|item items IH]; intros m Hsh; [done|].
  unfold insert_all. cbn [foldl].
  apply (IH (bump_rows (λ i, N.to_nat (column width i item)) m)).
  by apply bump_rows_shape.
Qed.

Lemma insert_all_app width items1 items2 m :
  insert_all width (items1 ++ items2) m
  = insert_all width items2 (insert_all width items1 m).
Proof. unfold insert_all. by rewrite foldl_app. Qed.

Lemma hits_app width i j items1 items2 :
  hits width i j (items1 ++ items2) = (hits width i j items1 + hits width i j items2)%N.
Proof. unfold hits. rewrite filter_app, length_app. lia. Qed.

Lemma hits_Permutation width i j items1 items2 :
  items1 ≡ₚ items2 → hits width i j items1 = hits width i j items2.
Proof. intros Hp. unfold hits. by rewrite Hp. Qed.

Lemma cell_add_rows_in m1 m2 i j :
  in_matrix m1 i j → in_matrix m2 i j →
  cell (add_rows m1 m2) i j = wrap32 (cell m1 i j + cell m2 i j).
Proof.
  intros (r1 & Hr1 & Hj1) (r2 & Hr2 & Hj2).
  destruct (lookup_lt_is_Some_2 r1 j Hj1) as [a Ha].
  destruct (lookup_lt_is_Some_2 r2 j Hj2) as [b Hb].
  unfold cell. rewrite (add_rows_lookup _ _ _ _ _ Hr1 Hr2), Hr1, Hr2. simpl.
  by rewrite lookup_zip_with, Ha, Hb.
Qed.

Lemma wrap32_add a b : wrap32 (wrap32 a + wrap32 b) = wrap32 (a + b).
Proof. unfold wrap32. by rewrite <- N.Div0.add_mod. Qed.

Lemma in_matrix_shape (w : N) m i j :
  Forall (λ row, N.of_nat (length row) = w) m →
  i < length m → j < N.to_nat w → in_matrix m i j.
Proof.
  intros Hsh Hi Hj. destruct (lookup_lt_is_Some_2 m i Hi) as [row Hrow].
  exists row. split; [done|].
  assert (N.of_nat (length row) = w) by (by eapply (proj1 (Forall_lookup _ _) Hsh)). lia.
Qed.

Lemma in_matrix_inv (w : N) m i j :
  Forall (λ row, N.of_nat (length row) = w) m →
  in_matrix m i j → i < length m ∧ j < N.to_nat w.
Proof.
  intros Hsh (row & Hrow & Hj). split; [by eapply lookup_lt_Some|].
  assert (N.of_nat (length row) = w) by (by eapply (proj1 (Forall_lookup _ _) Hsh)). lia.
Qed.

Lemma resize_rows_id (w : N) (m : list (list N)) :
  Forall (λ row, N.of_nat (length row) = w) m →
  resize (N.to_nat w) 0%N <$> m = m.
Proof.
  intros Hsh. induction Hsh as [|row m Hrow Hsh IH]; [done|].
  cbn [fmap list_fmap]. f_equal; [|exact IH].
  apply resize_all_alt. lia.
Qed.

Lemma foldl_min_pointwise_le {A} (f g : A → N) (l : list A) (a b : N) :
  (a ≤ b)%N → (∀ x, x ∈ l → (f x ≤ g x)%N) →
  (foldl N.min a (f <$> l) ≤ foldl N.min b (g <$> l))%N.
Proof.
  revert a b. induction l as [|x l IH]; intros a b Hab Hfg; [done|].
  cbn [fmap list_fmap foldl]. apply IH.
  - specialize (Hfg x (list_elem_of_here _ _)). lia.
  - intros y Hy. apply Hfg. by right.
Qed.

Lemma foldl_min_pointwise_succ {A} (f g : A → N) (l : list A) (a : N) :
  (∀ x, x ∈ l → g x = (f x + 1)%N) →
  foldl N.min (a + 1)%N (g <$> l) = (foldl N.min a (f <$> l) + 1)%N.
Proof.
  revert a. induction l as [|x l IH]; intros a Hfg; [done|].
  cbn [fmap list_fmap foldl]. rewrite (Hfg x) by (by left).
  replace (N.min (a + 1) (f x + 1))%N with (N.min a (f x) + 1)%N by lia.
  apply IH. intros y Hy. apply Hfg. by right.
Qed.

Lemma foldl_min_attained (lo acc : N) cs :
  lo ∈ cs → Forall (λ c, (lo ≤ c)%N) cs → (lo ≤ acc)%N → foldl N.min acc cs = lo.
Proof.
  intros Hin Hall Hacc. apply N.le_antisymm.
  - by apply foldl_min_upper.
  - by apply foldl_min_lower.
Qed.

Lemma usable_in_matrix this o i j :
  usable this o → i < N.to_nat (depth_ o) → j < N.to_nat (width_ o) →
  in_matrix (count_matrix_ o) i j.
Proof.
  intros (Hw & Hd & Hrows & Hsh & Hhs) Hi Hj.
  apply (in_matrix_shape (width_ o)); [done|lia|done].
Qed.

Lemma counters_below_cell bound m i j :
  counters_below bound m → in_matrix m i j → (cell m i j < bound)%N.
Proof.
  intros Hb (row & Hrow & Hj). destruct (lookup_lt_is_Some_2 row j Hj) as [c Hc].
  unfold cell. rewrite Hrow. simpl. rewrite Hc. simpl.
  pose proof (proj1 (Forall_lookup _ _) Hb i row Hrow) as Hbrow.
  exact (proj1 (Forall_lookup _ _) Hbrow j c Hc).
Qed.

(** The counter of [x] in row [i] after an insertion of [y]. *)
Lemma hit_after_insert this o x y i :
  usable this o → i < N.to_nat (depth_ o) →
  hit (width_ o)
      (bump_rows (λ i, N.to_nat (column (width_ o) i y)) (count_matrix_ o)) x i
  = if decide (column (width_ o) i y = column (width_ o) i x)
    then wrap32 (hit (width_ o) (count_matrix_ o) x i + 1)
    else hit (width_ o) (count_matrix_ o) x i.
Proof.
  intros Hus Hi. pose proof Hus as (Hw & _).
  unfold hit. rewrite cell_bump_rows.
  - destruct (decide (column (width_ o) i y = column (width_ o) i x)) as [Heq|Hne].
    + by rewrite decide_True by (by rewrite Heq).
    + rewrite decide_False; [done|]. intros Heq. apply Hne. by apply N2Nat.inj.
  - apply (usable_in_matrix this); [done..|].
    assert (column (width_ o) i x < width_ o)%N by (apply column_lt; lia). lia.
Qed.

Lemma usable_after_insert this o y :
  usable this o →
  usable this (set_count_matrix o
                 (bump_rows (λ i, N.to_nat (column (width_ o) i y)) (count_matrix_ o))).
Proof.
  intros Hus. apply usable_set_count_matrix; [done|apply bump_rows_length|].
  apply bump_rows_shape. by destruct Hus as (_ & _ & _ & ? & _).
Qed.

(** X1.  On a sketch as the constructors and insertions leave it, with
    every counter below [UINT32_MAX - 1]: inserting [y] raises [Count]
    of any key [x] by 0 or by 1, and by exactly 1 when [x] is [y]. *)
Theorem insert_raises_count (st : gmap positive CountMinSketch) (this : positive)
    (o : CountMinSketch) (x y : KeyType) :
  st !! this = Some o → usable this o →
  counters_below (UINT32_MAX - 1) (count_matrix_ o) →
  ∃ st' v v', Insert st this y = Ok st' ∧
    Count st this x = Ok v ∧ Count st' this x = Ok v' ∧
    (v ≤ v' ≤ v + 1)%N ∧ (x = y → v' = (v + 1)%N).
Proof.
  intros Ho Hus Hbelow. pose proof Hus as (Hw & Hd & Hrows & Hsh & Hhs).
  set (m' := bump_rows (λ i, N.to_nat (column (width_ o) i y)) (count_matrix_ o)).
  set (f := hit (width_ o) (count_matrix_ o) x).
  set (g := hit (width_ o) m' x).
  set (rows := seq 0 (N.to_nat (depth_ o))).
  assert (∀ i, i ∈ rows → (f i < UINT32_MAX - 1)%N) as Hf.
  { intros i Hi%elem_of_seq. apply counters_below_cell; [done|].
    apply (usable_in_matrix this); [done|lia|].
    assert (column (width_ o) i x < width_ o)%N by (apply column_lt; lia). lia. }
  assert (∀ i, i ∈ rows →
            g i = if decide (column (width_ o) i y = column (width_ o) i x)
                  then (f i + 1)%N else f i) as Hg.
  { intros i Hi. pose proof (Hf i Hi) as Hlt. apply elem_of_seq in Hi.
    subst g f m'. rewrite (hit_after_insert this) by (done || lia).
    case_decide; [|done]. apply wrap32_small. unfold UINT32_MAX in Hlt. lia. }
  assert (0 ∈ rows) as H0 by (apply elem_of_seq; lia).
  assert (f 0 ∈ f <$> rows) as Hf0 by (apply list_elem_of_fmap; by exists 0).
  assert (g 0 ∈ g <$> rows) as Hg0 by (apply list_elem_of_fmap; by exists 0).
  pose proof (foldl_min_upper UINT32_MAX _ _ Hf0) as Hupf.
  pose proof (foldl_min_upper UINT32_MAX _ _ Hg0) as Hupg.
  pose proof (Hf 0 H0) as Hf0lt. pose proof (Hg 0 H0) as Hg0eq.
  assert ((g 0%nat ≤ f 0%nat + 1)%N) as Hg0le by (rewrite Hg0eq; case_decide; lia).
  assert ((foldl N.min UINT32_MAX (f <$> rows) ≤ foldl N.min UINT32_MAX (g <$> rows))%N)
    as Hlow.
  { apply foldl_min_pointwise_le; [done|]. intros i Hi. rewrite (Hg i Hi).
    destruct (decide (column (width_ o) i y = column (width_ o) i x)); lia. }
  assert ((foldl N.min UINT32_MAX (g <$> rows)
           ≤ foldl N.min UINT32_MAX (f <$> rows) + 1)%N) as Hhigh.
  { rewrite <- (foldl_min_pointwise_succ f (λ i, (f i + 1)%N)) by done.
    apply foldl_min_pointwise_le; [lia|]. intros i Hi. rewrite (Hg i Hi).
    destruct (decide (column (width_ o) i y = column (width_ o) i x)); lia. }
  eexists _, _, _. split; [by apply Insert_usable|].
  split; [by apply Count_usable|]. split.
  { erewrite Count_usable; [done|apply lookup_insert_eq|by apply usable_after_insert]. }
  simpl. fold m' f g rows.
  rewrite !finish_small by lia. split; [done|].
  intros ->.
  assert (∀ i, i ∈ rows → g i = (f i + 1)%N) as Hsucc
    by (intros i Hi; rewrite (Hg i Hi); by rewrite decide_True).
  subst rows. destruct (N.to_nat (depth_ o)) as [|d] eqn:Hdepth; [lia|].
  cbn [seq fmap list_fmap foldl].
  specialize (Hf 0 (list_elem_of_here _ _)).
  rewrite (Hsucc 0) by (by left).
  replace (N.min UINT32_MAX (f 0%nat + 1)) with (f 0%nat + 1)%N by lia.
  replace (N.min UINT32_MAX (f 0%nat)) with (f 0%nat) by lia.
  apply foldl_min_pointwise_succ. intros i Hi. apply Hsucc. by right.
Qed.

(** X2.  On a sketch as the constructors and insertions leave it,
    [Insert] returns and changes one counter in each row, the one in
    the column of the item, which it increments modulo [2^32]; every
    other counter, the dimensions, the hashers and every other object
    are as before. *)
Theorem insert_touches_one_counter_per_row (st : gmap positive CountMinSketch)
    (this : positive) (o : CountMinSketch) (item : KeyType) :
  st !! this = Some o → usable this o →
  ∃ st' o', Insert st this item = Ok st' ∧ st' !! this = Some o' ∧
    width_ o' = width_ o ∧ depth_ o' = depth_ o ∧
    hash_functions_ o' = hash_functions_ o ∧ usable this o' ∧
    (∀ i j, i < N.to_nat (depth_ o) → j < N.to_nat (width_ o) →
       cell (count_matrix_ o') i j
       = if decide (N.to_nat (column (width_ o) i item) = j)
         then wrap32 (cell (count_matrix_ o) i j + 1)
         else cell (count_matrix_ o) i j) ∧
    ∀ a, a ≠ this → st' !! a = st !! a.
Proof.
  intros Ho Hus. eexists _, _. split; [by apply Insert_usable|].
  split; [apply lookup_insert_eq|]. simpl. split_and!; try done.
  - by apply usable_after_insert.
  - intros i j Hi Hj. apply cell_bump_rows. by apply (usable_in_matrix this).
  - intros a Ha. by rewrite lookup_insert_ne.
Qed.

(** ** Sketches built by insertions *)

Lemma built_usable this width depth items :
  (0 < width < 4294967296)%N → (0 < depth)%N → usable this (built this width depth items).
Proof.
  intros Hw Hd. unfold usable, built.
  cbn [width_ depth_ hash_functions_ count_matrix_]. split_and!; try done; try lia.
  - rewrite insert_all_length, zeros_length. lia.
  - apply insert_all_shape, zeros_shape.
Qed.

Lemma Construct_built st this width depth :
  (0 < width < 4294967296)%N → (0 < depth)%N →
  Construct st this width depth = Ok (<[this := built this width depth []]> st).
Proof. intros Hw Hd. apply Construct_Ok; lia. Qed.

Lemma InsertAll_built st this width depth items items' :
  (0 < width < 4294967296)%N → (0 < depth)%N →
  st !! this = Some (built this width depth items) →
  InsertAll st this items'
  = Ok (<[this := built this width depth (items ++ items')]> st).
Proof.
  intros Hw Hd Ho.
  destruct (InsertAll_usable st this _ items' Ho (built_usable this width depth items Hw Hd))
    as [HI _].
  rewrite HI. do 2 f_equal. unfold built, set_count_matrix.
  cbn [width_ depth_ hash_functions_ count_matrix_]. f_equal.
  by rewrite insert_all_app.
Qed.

Lemma Count_built st this width depth items x :
  (0 < width < 4294967296)%N → (0 < depth)%N →
  st !! this = Some (built this width depth items) →
  Count st this x
  = Ok (finish (foldl N.min UINT32_MAX
          ((λ i, wrap32 (hits width i (N.to_nat (column width i x)) items))
           <$> seq 0 (N.to_nat depth)))).
Proof.
  intros Hw Hd Ho.
  rewrite (Count_usable st this _ x Ho (built_usable this width depth items Hw Hd)).
  unfold built. cbn [width_ depth_ hash_functions_ count_matrix_]. do 3 f_equal.
  apply list_fmap_ext. intros k i Hi. apply lookup_seq in Hi as [-> Hi]. simpl.
  unfold hit. apply cell_insert_all_zeros; [done|].
  assert (column width k x < width)%N by (apply column_lt; lia). lia.
Qed.

Lemma occurrences_app x (items1 items2 : list KeyType) :
  occurrences x (items1 ++ items2) = (occurrences x items1 + occurrences x items2)%N.
Proof. unfold occurrences. rewrite filter_app, length_app. lia. Qed.

Lemma occurrences_le_length x (items : list KeyType) :
  (occurrences x items ≤ N.of_nat (length items))%N.
Proof. unfold occurrences. pose proof (length_filter (λ y, y = x) items). lia. Qed.

Lemma finish_le n : (finish n ≤ n)%N.
Proof. unfold finish. destruct (n =? UINT32_MAX)%N; lia. Qed.

(** Without a collision in row [i], the counter of [x] there counts [x]. *)
Lemma hits_without_collision width i x items :
  (∀ y, y ∈ items → y ≠ x → column width i y ≠ column width i x) →
  hits width i (N.to_nat (column width i x)) items = occurrences x items.
Proof.
  unfold hits, occurrences. induction items as [|y items IH]; intros Hfree; [done|].
  rewrite !filter_cons.
  assert (length (filter (λ y, N.to_nat (column width i y) = N.to_nat (column width i x)) items)
          = length (filter (λ y, y = x) items)) as IH'.
  { apply Nat2N.inj, IH. intros z Hz. apply Hfree. by right. }
  destruct (decide (y = x)) as [->|Hne].
  - rewrite decide_True by done. simpl. by rewrite IH'.
  - rewrite decide_False; [by rewrite IH'|].
    intros Heq%N2Nat.inj. by apply (Hfree y (list_elem_of_here _ _) Hne).
Qed.

(** What [Count] returns on a sketch built by fewer than [UINT32_MAX]
    insertions: the least of the counters of [x], none of which wrapped. *)
Lemma Count_built_small st this width depth items x :
  (0 < width < 4294967296)%N → (0 < depth)%N →
  (N.of_nat (length items) < UINT32_MAX)%N →
  st !! this = Some (built this width depth items) →
  Count st this x
  = Ok (foldl N.min UINT32_MAX
          ((λ i, hits width i (N.to_nat (column width i x)) items)
           <$> seq 0 (N.to_nat depth)))
  ∧ (foldl N.min UINT32_MAX
          ((λ i, hits width i (N.to_nat (column width i x)) items)
           <$> seq 0 (N.to_nat depth)) < UINT32_MAX)%N.
Proof.
  intros Hw Hd Hlen Ho. rewrite (Count_built st this width depth items x Hw Hd Ho).
  assert (∀ i, (hits width i (N.to_nat (column width i x)) items < UINT32_MAX)%N) as Hsmall.
  { intros i. pose proof (hits_le_length width i (N.to_nat (column width i x)) items). lia. }
  assert ((λ i, wrap32 (hits width i (N.to_nat (column width i x)) items))
          <$> seq 0 (N.to_nat depth)
          = (λ i, hits width i (N.to_nat (column width i x)) items)
            <$> seq 0 (N.to_nat depth)) as ->.
  { apply list_fmap_ext. intros k i _. simpl. apply wrap32_small.
    specialize (Hsmall i). unfold UINT32_MAX in Hsmall. lia. }
  assert ((foldl N.min UINT32_MAX
             ((λ i, hits width i (N.to_nat (column width i x)) items)
              <$> seq 0 (N.to_nat depth)) < UINT32_MAX)%N) as Hlt.
  { eapply N.le_lt_trans; [|apply (Hsmall 0)].
    apply foldl_min_upper. apply list_elem_of_fmap. exists 0. split; [done|].
    apply elem_of_seq. lia. }
  split; [|done]. by rewrite finish_small.
Qed.

(** X3.  After fewer than [UINT32_MAX] insertions into a new sketch,
    if some row has no inserted key other than [x] in the column of
    [x], then [Count] of [x] is exactly the number of times [x] was
    inserted (0 for a key that was never inserted). *)
Theorem count_exact_without_collision (st : gmap positive CountMinSketch)
    (this : positive) (width depth : N) (items : list KeyType) (x : KeyType) (i : nat) :
  (0 < width < 4294967296)%N → (0 < depth)%N →
  (N.of_nat (length items) < UINT32_MAX)%N →
  i < N.to_nat depth →
  (∀ y, y ∈ items → y ≠ x → column width i y ≠ column width i x) →
  ∃ st0 st1, Construct st this width depth = Ok st0 ∧
    InsertAll st0 this items = Ok st1 ∧
    Count st1 this x = Ok (occurrences x items).
Proof.
  intros Hw Hd Hlen Hi Hfree.
  eexists _, _. split; [by apply Construct_built|].
  split; [by apply (InsertAll_built _ this width depth []); [..|apply lookup_insert_eq]|].
  simpl.
  destruct (Count_built_small (<[this := built this width depth items]>
              (<[this := built this width depth []]> st)) this width depth items x)
    as [-> _]; [done..|apply lookup_insert_eq|].
  f_equal. apply foldl_min_attained.
  - apply list_elem_of_fmap. exists i. split; [|apply elem_of_seq; lia].
    by rewrite hits_without_collision.
  - apply Forall_fmap, Forall_true. intros k. simpl. apply occurrences_le_hits.
  - pose proof (occurrences_le_length x items). lia.
Qed.

(** X4.  After any insertions into a new sketch, wrapped counters or
    not, [Count] of a key never exceeds the number of insertions. *)
Theorem count_at_most_insertions (st : gmap positive CountMinSketch)
    (this : positive) (width depth : N) (items : list KeyType) (x : KeyType) :
  (0 < width < 4294967296)%N → (0 < depth)%N →
  ∃ st0 st1 v, Construct st this width depth = Ok st0 ∧
    InsertAll st0 this items = Ok st1 ∧
    Count st1 this x = Ok v ∧ (v ≤ N.of_nat (length items))%N.
Proof.
  intros Hw Hd.
  eexists _, _, _. split; [by apply Construct_built|].
  split; [by apply (InsertAll_built _ this width depth []); [..|apply lookup_insert_eq]|].
  simpl. split; [by apply (Count_built _ this width depth items); [..|apply lookup_insert_eq]|].
  etrans; [apply finish_le|].
  etrans; [apply (foldl_min_upper _
    (wrap32 (hits width 0 (N.to_nat (column width 0 x)) items)))|].
  - apply list_elem_of_fmap. exists 0. split; [done|]. apply elem_of_seq. lia.
  - etrans; [apply wrap32_le|apply hits_le_length].
Qed.

Lemma insert_all_Permutation width depth items items' :
  items ≡ₚ items' →
  insert_all width items (zeros width depth) = insert_all width items' (zeros width depth).
Proof.
  intros Hp. apply (matrix_eq width).
  - by rewrite !insert_all_length.
  - apply insert_all_shape, zeros_shape.
  - apply insert_all_shape, zeros_shape.
  - intros i j Hin.
    apply (in_matrix_inv width) in Hin as [Hi Hj]; [|apply insert_all_shape, zeros_shape].
    rewrite insert_all_length, zeros_length in Hi.
    rewrite !cell_insert_all_zeros by done. f_equal. by apply hits_Permutation.
Qed.

(** X5.  The order of insertions does not matter: inserting the same
    items in another order into a new sketch leaves the same store. *)
Theorem insertion_order_irrelevant (st : gmap positive CountMinSketch)
    (this : positive) (width depth : N) (items items' : list KeyType) :
  (0 < width < 4294967296)%N → (0 < depth)%N → items ≡ₚ items' →
  ∃ st0 st1, Construct st this width depth = Ok st0 ∧
    InsertAll st0 this items = Ok st1 ∧ InsertAll st0 this items' = Ok st1.
Proof.
  intros Hw Hd Hp.
  eexists _, _. split; [by apply Construct_built|].
  split; [by apply (InsertAll_built _ this width depth []); [..|apply lookup_insert_eq]|].
  rewrite (InsertAll_built _ this width depth [] items') by (done || apply lookup_insert_eq).
  simpl. do 2 f_equal. unfold built. f_equal. symmetry.
  by apply insert_all_Permutation.
Qed.

Lemma add_rows_insert_all width depth items1 items2 :
  add_rows (insert_all width items1 (zeros width depth))
           (insert_all width items2 (zeros width depth))
  = insert_all width (items1 ++ items2) (zeros width depth).
Proof.
  apply (matrix_eq width).
  - rewrite add_rows_length; by rewrite !insert_all_length.
  - apply add_rows_shape; apply insert_all_shape, zeros_shape.
  - apply insert_all_shape, zeros_shape.
  - intros i j Hin.
    apply (in_matrix_inv width) in Hin as [Hi Hj];
      [|apply add_rows_shape; apply insert_all_shape, zeros_shape].
    rewrite add_rows_length, insert_all_length, zeros_length in Hi
      by (by rewrite !insert_all_length).
    rewrite cell_add_rows_in.
    + rewrite !cell_insert_all_zeros by done. by rewrite wrap32_add, hits_app.
    + apply (in_matrix_shape width); [apply insert_all_shape, zeros_shape| |done].
      by rewrite insert_all_length, zeros_length.
    + apply (in_matrix_shape width); [apply insert_all_shape, zeros_shape| |done].
      by rewrite insert_all_length, zeros_length.
Qed.

(** What merging two sketches built by insertions leaves. *)
Lemma Merge_built st a b width depth items1 items2 :
  (0 < width < 4294967296)%N → (0 < depth)%N →
  st !! a = Some (built a width depth items1) →
  st !! b = Some (built b width depth items2) →
  Merge st a b = Ok (<[a := built a width depth (items1 ++ items2)]> st).
Proof.
  intros Hw Hd Ha Hb.
  pose proof (built_usable a width depth items1 Hw Hd) as (_ & _ & Hrows1 & Hsh1 & _).
  pose proof (built_usable b width depth items2 Hw Hd) as (_ & _ & Hrows2 & Hsh2 & _).
  rewrite (Merge_spec st a b _ _ Ha Hb) by done.
  do 2 f_equal. unfold built, set_count_matrix.
  cbn [width_ depth_ hash_functions_ count_matrix_]. f_equal.
  apply add_rows_insert_all.
Qed.

(** X6.  Merging is concatenation of the streams: build a sketch at
    [a] from [items1] and one of the same dimensions at [b] from
    [items2]; after [a.Merge(b)] the object at [a] is the one that
    inserting [items1 ++ items2] into a single sketch leaves, so
    [Count] agrees on every key. *)
Theorem merge_is_concatenation (st : gmap positive CountMinSketch) (a b : positive)
    (width depth : N) (items1 items2 : list KeyType) :
  a ≠ b → (0 < width < 4294967296)%N → (0 < depth)%N →
  ∃ s1 s2 s3 s4 s5 r : gmap positive CountMinSketch,
    Construct st a width depth = Ok s1 ∧ InsertAll s1 a items1 = Ok s2 ∧
    Construct s2 b width depth = Ok s3 ∧ InsertAll s3 b items2 = Ok s4 ∧
    Merge s4 a b = Ok s5 ∧
    InsertAll s1 a (items1 ++ items2) = Ok r ∧
    s5 !! a = r !! a ∧ ∀ x, Count s5 a x = Count r a x.
Proof.
  intros Hne Hw Hd.
  eexists _, _, _, _, _, _.
  split; [by apply Construct_built|].
  split; [by apply (InsertAll_built _ a width depth []); [..|apply lookup_insert_eq]|].
  split; [by apply Construct_built|].
  split; [by apply (InsertAll_built _ b width depth []); [..|apply lookup_insert_eq]|].
  split.
  { apply (Merge_built _ a b width depth ([] ++ items1) ([] ++ items2)); try done.
    - rewrite lookup_insert_ne by done. rewrite lookup_insert_ne by done.
      apply lookup_insert_eq.
    - apply lookup_insert_eq. }
  split; [by apply (InsertAll_built _ a width depth []); [..|apply lookup_insert_eq]|].
  simpl. rewrite !lookup_insert_eq. split; [done|].
  intros x.
  rewrite (Count_built _ a width depth (items1 ++ items2) x) by (done || apply lookup_insert_eq).
  by rewrite (Count_built _ a width depth (items1 ++ items2) x)
    by (done || apply lookup_insert_eq).
Qed.

(** X7.  After merging two sketches built from [items1] and [items2],
    fewer than [UINT32_MAX] items in all, [Count] of a key is at least
    the number of times it occurs in [items1] plus in [items2]. *)
Theorem merge_lower_bound (st : gmap positive CountMinSketch) (a b : positive)
    (width depth : N) (items1 items2 : list KeyType) (x : KeyType) :
  a ≠ b → (0 < width < 4294967296)%N → (0 < depth)%N →
  (N.of_nat (length items1) + N.of_nat (length items2) < UINT32_MAX)%N →
  ∃ (s1 s2 s3 s4 s5 : gmap positive CountMinSketch) (v : N),
    Construct st a width depth = Ok s1 ∧ InsertAll s1 a items1 = Ok s2 ∧
    Construct s2 b width depth = Ok s3 ∧ InsertAll s3 b items2 = Ok s4 ∧
    Merge s4 a b = Ok s5 ∧
    Count s5 a x = Ok v ∧ (occurrences x items1 + occurrences x items2 ≤ v)%N.
Proof.
  intros Hne Hw Hd Hlen.
  eexists _, _, _, _, _, _.
  split; [by apply Construct_built|].
  split; [by apply (InsertAll_built _ a width depth []); [..|apply lookup_insert_eq]|].
  split; [by apply Construct_built|].
  split; [by apply (InsertAll_built _ b width depth []); [..|apply lookup_insert_eq]|].
  split.
  { apply (Merge_built _ a b width depth ([] ++ items1) ([] ++ items2)); try done.
    - rewrite lookup_insert_ne by done. rewrite lookup_insert_ne by done.
      apply lookup_insert_eq.
    - apply lookup_insert_eq. }
  simpl.
  assert (N.of_nat (length (items1 ++ items2)) < UINT32_MAX)%N as Hlen'
    by (rewrite length_app; lia).
  destruct (Count_built_small (<[a := built a width depth (items1 ++ items2)]>
       (<[b := built b width depth items2]>
          (<[b := built b width depth []]>
             (<[a := built a width depth items1]>
                (<[a := built a width depth []]> st)))))
       a width depth (items1 ++ items2) x) as [-> _];
    [done..|apply lookup_insert_eq|].
  split; [done|]. rewrite <- occurrences_app.
  apply foldl_min_lower.
  - pose proof (occurrences_le_length x (items1 ++ items2)). lia.
  - apply Forall_fmap, Forall_true. intros k. simpl. apply occurrences_le_hits.
Qed.

Lemma add_rows_comm m1 m2 : add_rows m1 m2 = add_rows m2 m1.
Proof.
  unfold add_rows. revert m2. induction m1 as [|r1 m1 IH]; intros [|r2 m2]; try done.
  simpl. f_equal; [|apply IH].
  revert r2. induction r1 as [|a r1 IHr]; intros [|b r2]; try done.
  simpl. f_equal; [by rewrite N.add_comm|apply IHr].
Qed.

(** X8.  For two different sketches of equal dimensions whose matrices
    have their shape, [a.Merge(b)] leaves in [a] the counters that
    [b.Merge(a)] leaves in [b]. *)
Theorem merge_commutes (st : gmap positive CountMinSketch) (a b : positive)
    (oa ob : CountMinSketch) :
  st !! a = Some oa → st !! b = Some ob →
  N.of_nat (length (count_matrix_ oa)) = depth_ oa →
  Forall (λ row, N.of_nat (length row) = width_ oa) (count_matrix_ oa) →
  N.of_nat (length (count_matrix_ ob)) = depth_ ob →
  Forall (λ row, N.of_nat (length row) = width_ ob) (count_matrix_ ob) →
  width_ oa = width_ ob → depth_ oa = depth_ ob →
  ∃ s1 s2 oa' ob', Merge st a b = Ok s1 ∧ Merge st b a = Ok s2 ∧
    s1 !! a = Some oa' ∧ s2 !! b = Some ob' ∧
    count_matrix_ oa' = count_matrix_ ob'.
Proof.
  intros Ha Hb Hra Hsa Hrb Hsb Hw Hd.
  eexists _, _, _, _. split; [by apply (Merge_spec st a b oa ob)|].
  split; [by apply (Merge_spec st b a ob oa)|].
  split; [apply lookup_insert_eq|]. split; [apply lookup_insert_eq|].
  simpl. apply add_rows_comm.
Qed.

Lemma add_rows_zeros (w d : N) m :
  N.of_nat (length m) = d → Forall (λ row, N.of_nat (length row) = w) m →
  counters_below 4294967296 m → add_rows m (zeros w d) = m.
Proof.
  intros Hrows Hsh Hbelow. apply (matrix_eq w).
  - rewrite add_rows_length; [done|]. rewrite zeros_length. lia.
  - apply add_rows_shape; [done|apply zeros_shape].
  - done.
  - intros i j Hin.
    apply (in_matrix_inv w) in Hin as [Hi Hj];
      [|apply add_rows_shape; [done|apply zeros_shape]].
    rewrite add_rows_length in Hi by (rewrite zeros_length; lia).
    assert (in_matrix m i j) as Hin by (by apply (in_matrix_shape w)).
    rewrite cell_add_rows_in; [|done|apply in_matrix_zeros; lia].
    rewrite cell_zeros, N.add_0_r. apply wrap32_small.
    by apply (counters_below_cell _ m).
Qed.

(** X9.  Merging a sketch whose counters are all zero (a new or a
    cleared one) of the same dimensions changes nothing: the store is
    the same after the call, given counters that fit 32 bits. *)
Theorem merge_zero_is_identity (st : gmap positive CountMinSketch) (this other : positive)
    (t o : CountMinSketch) :
  st !! this = Some t → st !! other = Some o →
  N.of_nat (length (count_matrix_ t)) = depth_ t →
  Forall (λ row, N.of_nat (length row) = width_ t) (count_matrix_ t) →
  counters_below 4294967296 (count_matrix_ t) →
  width_ t = width_ o → depth_ t = depth_ o →
  count_matrix_ o = zeros (width_ o) (depth_ o) →
  Merge st this other = Ok st.
Proof.
  intros Ht Ho Hrows Hsh Hbelow Hw Hd Hzero.
  rewrite (Merge_spec st this other t o); try done.
  - rewrite Hzero, <- Hw, <- Hd, add_rows_zeros by done.
    by rewrite set_count_matrix_same, insert_id.
  - rewrite Hzero, zeros_length. lia.
  - rewrite Hzero. apply zeros_shape.
Qed.

(** X10.  On a sketch as the constructors and insertions leave it,
    [Clear] leaves exactly the store that constructing a new sketch of
    the same dimensions at the same address would. *)
Theorem clear_is_reconstruction (st : gmap positive CountMinSketch) (this : positive)
    (o : CountMinSketch) :
  st !! this = Some o → usable this o →
  Clear st this = Construct st this (width_ o) (depth_ o).
Proof.
  intros Ho (Hw & Hd & Hrows & Hsh & Hhs).
  rewrite (Clear_spec st this o) by done.
  rewrite Construct_Ok by lia. do 2 f_equal.
  unfold set_count_matrix. by rewrite Hhs.
Qed.

(** ** Moving a sketch *)

Lemma moved_to_usable this dst o :
  usable this o → usable dst (moved_to dst o).
Proof.
  intros (Hw & Hd & Hrows & Hsh & Hhs). unfold usable, moved_to.
  cbn [width_ depth_ hash_functions_ count_matrix_].
  split_and!; try done; try lia.
  - by rewrite length_fmap.
  - by rewrite (resize_rows_id (width_ o)).
Qed.

Lemma moved_to_count_matrix this dst o :
  usable this o → count_matrix_ (moved_to dst o) = count_matrix_ o.
Proof.
  intros (Hw & Hd & Hrows & Hsh & Hhs). simpl. by apply resize_rows_id.
Qed.

(** X11.  A move keeps the estimates: after a move construction or a
    move assignment from a sketch as the constructors and insertions
    leave it, the new owner holds the same counters, and [Count] on it
    returns for every key what [Count] on the source returned before
    the move. *)
Theorem move_keeps_estimates (st : gmap positive CountMinSketch) (src dst : positive)
    (o : CountMinSketch) :
  st !! src = Some o → usable src o → dst ≠ src →
  ∃ st' t, MoveConstruct st dst src = Ok st' ∧
    (is_Some (st !! dst) → MoveAssign st dst src = Ok st') ∧
    st' !! dst = Some t ∧ count_matrix_ t = count_matrix_ o ∧ usable dst t ∧
    ∀ x, Count st' dst x = Count st src x.
Proof.
  intros Ho Hus Hne.
  assert ((<[src := left_behind o]> (<[dst := moved_to dst o]> st)) !! dst
          = Some (moved_to dst o)) as Hdst
    by (rewrite lookup_insert_ne by done; apply lookup_insert_eq).
  eexists _, _. split; [by apply MoveConstruct_spec|].
  split; [intros Hsome; by apply MoveAssign_spec|].
  split; [exact Hdst|]. split; [by apply (moved_to_count_matrix src)|].
  split; [by apply (moved_to_usable src)|].
  intros x.
  rewrite (Count_usable _ dst _ x Hdst (moved_to_usable src dst o Hus)).
  rewrite (Count_usable st src o x Ho Hus).
  by rewrite (moved_to_count_matrix src).
Qed.

(** X12.  Moving a sketch away and back restores it: after a move
    construction at [dst] from [src] and a move assignment from [dst]
    back to [src], the object at [src] is the one it was, and [dst] is
    left with width 0, depth 0 and no counters. *)
Theorem move_round_trip (st : gmap positive CountMinSketch) (src dst : positive)
    (o : CountMinSketch) :
  st !! src = Some o → usable src o → dst ≠ src →
  ∃ s1 s2 t, MoveConstruct st dst src = Ok s1 ∧ MoveAssign s1 src dst = Ok s2 ∧
    s2 !! src = Some o ∧ s2 !! dst = Some t ∧
    width_ t = 0%N ∧ depth_ t = 0%N ∧ count_matrix_ t = [].
Proof.
  intros Ho Hus Hne. pose proof Hus as (Hw & Hd & Hrows & Hsh & Hhs).
  eexists _, _, _. split; [by apply MoveConstruct_spec|].
  split.
  { apply MoveAssign_spec; [done| |].
    - rewrite lookup_insert_eq. by eexists.
    - rewrite lookup_insert_ne by done. apply lookup_insert_eq. }
  split.
  { rewrite lookup_insert_ne by done. rewrite lookup_insert_eq. f_equal.
    unfold moved_to. cbn [width_ depth_ hash_functions_ count_matrix_].
    rewrite !(resize_rows_id (width_ o) (count_matrix_ o)) by done.
    rewrite <- Hhs. by destruct o. }
  split; [apply lookup_insert_eq|]. done.
Qed.

(** X13.  The hashers a move leaves in its source cannot be called any
    more: each of them captures the source, whose width is now 0, and
    a call divides by zero. *)
Theorem moved_from_hashers_divide_by_zero (st : gmap positive CountMinSketch)
    (src dst : positive) (o : CountMinSketch) :
  st !! src = Some o → usable src o → dst ≠ src →
  ∃ st' s, MoveConstruct st dst src = Ok st' ∧ st' !! src = Some s ∧
    length (hash_functions_ s) = N.to_nat (depth_ o) ∧
    ∀ h item, h ∈ hash_functions_ s → call st' h item = Undefined DivideByZero.
Proof.
  intros Ho Hus Hne. pose proof Hus as (Hw & Hd & Hrows & Hsh & Hhs).
  eexists _, _. split; [by apply MoveConstruct_spec|].
  split; [apply lookup_insert_eq|]. simpl. split.
  - by rewrite Hhs, push_hashers_length.
  - intros h item Hh. rewrite Hhs in Hh.
    apply push_hashers_elem in Hh as (i & Hi & ->).
    unfold call, deref. simpl. by rewrite lookup_insert_eq.
Qed.

(** ** What TopK drops *)

(** X14.  [TopK] returns the candidates with the largest estimates:
    the pairs it returns, together with the pairs it drops, are the
    candidates each paired with its [Count], and no dropped pair has a
    larger estimate than a returned one.  It drops
    [candidates.size() - k] of them (none when [k] is that large). *)
Theorem topk_keeps_the_largest
    (std_sort : (KeyType * N → KeyType * N → bool) → list (KeyType * N) → list (KeyType * N))
    (st : gmap positive CountMinSketch) (this : positive) (k : N)
    (candidates : list KeyType) :
  (∀ l, sorted_by by_count_desc l (std_sort by_count_desc l)) →
  structural_invariant st this →
  ∃ result dropped, TopK std_sort st this k candidates = Ok result ∧
    (result ++ dropped).*1 ≡ₚ candidates ∧
    length dropped = length candidates - N.to_nat k ∧
    (∀ c e, (c, e) ∈ result ++ dropped → Count st this c = Ok e) ∧
    ∀ a b, a ∈ result → b ∈ dropped → (b.2 ≤ a.2)%N.
Proof.
  intros Hsort Hinv. pose proof Hinv as (o & Ho & _).
  set (pairs := (λ c, (c, estimate st o c)) <$> candidates).
  assert (pairs.*1 = candidates) as Hfst.
  { subst pairs. rewrite <- list_fmap_compose. apply list_fmap_id. }
  assert (∀ c e, (c, e) ∈ pairs → Count st this c = Ok e) as Hcount.
  { intros c e Hin. subst pairs.
    apply list_elem_of_fmap in Hin as (c' & [= -> ->] & _).
    destruct (Count_invariant st this c' Hinv) as (o' & Ho' & ->). by simplify_eq. }
  destruct (decide (k = 0%N)) as [->|Hk].
  - exists [], pairs. split; [done|]. simpl. split; [by rewrite Hfst|].
    split; [subst pairs; rewrite length_fmap; lia|]. split; [done|].
    intros a b Ha. by apply elem_of_nil in Ha.
  - destruct (Hsort pairs) as [Hperm Hsorted].
    set (sorted := std_sort by_count_desc pairs) in *.
    set (n := N.to_nat (N.min k (N.of_nat (length sorted)))).
    exists (take n sorted), (drop n sorted).
    split; [by rewrite (TopK_spec std_sort st this o)|].
    rewrite take_drop. split; [by rewrite Hperm, Hfst|].
    assert (length sorted = length candidates) as Hlen
      by (rewrite Hperm; subst pairs; by rewrite length_fmap).
    split; [rewrite length_drop; subst n; lia|].
    split; [intros c e Hin; rewrite Hperm in Hin; by apply Hcount|].
    intros a b Ha Hb. rewrite <- (take_drop n sorted) in Hsorted.
    pose proof (StronglySorted_app_1_elem_of _ _ _ _ _ Hsorted Ha Hb) as Hab.
    simpl in Hab. unfold by_count_desc in Hab. by apply N.ltb_ge in Hab.
Qed.

(** ** Stores built through the public operations *)

Lemma settled_insert st a o :
  settled st → usable a o ∨ emptied o → settled (<[a := o]> st).
Proof.
  intros Hst Ho b ob Hb. destruct (decide (a = b)) as [<-|Hne].
  - rewrite lookup_insert_eq in Hb. by injection Hb as <-.
  - rewrite lookup_insert_ne in Hb by done. by apply Hst.
Qed.

Lemma settled_shape st a o :
  settled st → st !! a = Some o →
  N.of_nat (length (count_matrix_ o)) = depth_ o ∧
  Forall (λ row, N.of_nat (length row) = width_ o) (count_matrix_ o).
Proof.
  intros Hst Ho. destruct (Hst a o Ho) as [(_ & _ & Hrows & Hsh & _)|(Hw & Hd & Hm)].
  - done.
  - rewrite Hm, Hd. by split.
Qed.

Lemma emptied_moved_to dst o : emptied o → emptied (moved_to dst o).
Proof.
  intros (Hw & Hd & Hm). unfold emptied, moved_to.
  cbn [width_ depth_ hash_functions_ count_matrix_]. by rewrite Hm.
Qed.

Lemma settled_move st this other o :
  settled st → st !! other = Some o → this ≠ other →
  settled (<[other := left_behind o]> (<[this := moved_to this o]> st)).
Proof.
  intros Hst Ho Hne. apply settled_insert; [|by right].
  apply settled_insert; [done|].
  destruct (Hst other o Ho) as [Hus|Hem].
  - left. by apply (moved_to_usable other).
  - right. by apply emptied_moved_to.
Qed.

Lemma Insert_settled st this o item :
  settled st → st !! this = Some o →
  ∃ st', Insert st this item = Ok st' ∧ settled st'.
Proof.
  intros Hst Ho. destruct (Hst this o Ho) as [Hus|(Hw & Hd & Hm)].
  - eexists. split; [by apply Insert_usable|].
    apply settled_insert; [done|]. left. by apply usable_after_insert.
  - exists st. split; [by apply (Insert_depth_0 st this o)|done].
Qed.

Lemma Clear_settled st this o :
  settled st → st !! this = Some o →
  ∃ st', Clear st this = Ok st' ∧ settled st'.
Proof.
  intros Hst Ho. destruct (settled_shape st this o Hst Ho) as [Hrows Hsh].
  eexists. split; [by apply Clear_spec|].
  apply settled_insert; [done|].
  destruct (Hst this o Ho) as [Hus|(Hw & Hd & Hm)].
  - left. apply usable_set_count_matrix; [done| |apply zeros_shape].
    rewrite zeros_length. lia.
  - right. unfold emptied. simpl. by rewrite Hd.
Qed.

Lemma Merge_settled st this other t o :
  settled st → st !! this = Some t → st !! other = Some o →
  (∃ st', Merge st this other = Ok st' ∧ settled st')
  ∨ Merge st this other = Throw invalid_argument st.
Proof.
  intros Hst Ht Ho.
  destruct (settled_shape st this t Hst Ht) as [Htrows Htsh].
  destruct (settled_shape st other o Hst Ho) as [Horows Hosh].
  destruct (decide (width_ t = width_ o)) as [Hw|Hw];
    [|right; apply (Merge_Throw st this other t o); auto].
  destruct (decide (depth_ t = depth_ o)) as [Hd|Hd];
    [|right; apply (Merge_Throw st this other t o); auto].
  left. eexists. split; [by apply Merge_spec|].
  apply settled_insert; [done|].
  destruct (Hst this t Ht) as [Hus|(Hwt & Hdt & Hm)].
  - left. apply usable_set_count_matrix; [done| |].
    + apply add_rows_length. lia.
    + apply add_rows_shape; [done|]. by rewrite Hw.
  - right. unfold emptied. simpl. by rewrite Hm.
Qed.

Lemma Count_settled st this o item :
  settled st → st !! this = Some o → ∃ v, Count st this item = Ok v.
Proof.
  intros Hst Ho. destruct (Hst this o Ho) as [Hus|(Hw & Hd & Hm)].
  - eexists. by apply Count_usable.
  - exists 0%N. by apply (Count_empty st this o).
Qed.

Lemma deref_Ok st p o : deref st p = Ok o → st !! p = Some o.
Proof. unfold deref. destruct (st !! p); [by intros [= ->]|done]. Qed.

Lemma Insert_live st this item st' :
  Insert st this item = Ok st' → is_Some (st !! this).
Proof. unfold Insert, deref. destruct (st !! this); [by eexists|done]. Qed.

Lemma Clear_live st this st' : Clear st this = Ok st' → is_Some (st !! this).
Proof. unfold Clear, deref. destruct (st !! this); [by eexists|done]. Qed.

Lemma Merge_live st this other st' :
  Merge st this other = Ok st' → is_Some (st !! this) ∧ is_Some (st !! other).
Proof.
  unfold Merge, deref. destruct (st !! this); [|done]. simpl.
  destruct (st !! other); [|done]. split; by eexists.
Qed.

Lemma MoveConstruct_live st this other st' :
  MoveConstruct st this other = Ok st' → is_Some (st !! other).
Proof. unfold MoveConstruct, deref. destruct (st !! other); [by eexists|done]. Qed.

Lemma reachable_stores_settled (st : gmap positive CountMinSketch) :
  reachable st → settled st.
Proof.
  induction 1 as [|st this width depth st' _ IH Hfresh Hw Hd HC
                  |st this other st' _ IH Hfresh HM
                  |st this other st' _ IH HM
                  |st this item st' _ IH HI
                  |st this other st' _ IH HM
                  |st this st' _ IH HC].
  - intros a o Ha. by rewrite lookup_empty in Ha.
  - apply Construct_inv in HC as (Hw0 & Hd0 & ->).
    apply settled_insert; [done|]. left. apply usable_fresh; lia.
  - destruct (MoveConstruct_live _ _ _ _ HM) as [o Ho].
    rewrite (MoveConstruct_spec st this other o Ho) in HM. injection HM as <-.
    apply settled_move; [done..|]. intros ->. by rewrite Hfresh in Ho.
  - destruct (decide (this = other)) as [->|Hne].
    + rewrite MoveAssign_self in HM. by injection HM as <-.
    + revert HM. unfold MoveAssign, deref. rewrite decide_False by done.
      destruct (st !! this) as [t|] eqn:Ht; [|done]. simpl.
      destruct (st !! other) as [o|] eqn:Ho; [|done]. simpl.
      intros [= <-]. by apply settled_move.
  - destruct (Insert_live _ _ _ _ HI) as [o Ho].
    destruct (Insert_settled st this o item IH Ho) as (st'' & HI' & Hst).
    rewrite HI in HI'. by injection HI' as ->.
  - destruct (Merge_live _ _ _ _ HM) as [[t Ht] [o Ho]].
    destruct (Merge_settled st this other t o IH Ht Ho) as [(st'' & HM' & Hst)|HT].
    + rewrite HM in HM'. by injection HM' as ->.
    + by rewrite HM in HT.
  - destruct (Clear_live _ _ _ HC) as [o Ho].
    destruct (Clear_settled st this o IH Ho) as (st'' & HC' & Hst).
    rewrite HC in HC'. by injection HC' as ->.
Qed.

(** X15.  Every object of a store built through the public operations
    is either a sketch with positive dimensions that fit 32 bits, a
    matrix of that shape and one hasher per row capturing the object
    itself, or an object with width 0, depth 0 and no rows, as a move
    leaves one. *)
Theorem reachable_settled (st : gmap positive CountMinSketch) (a : positive)
    (o : CountMinSketch) :
  reachable st → st !! a = Some o →
  ((0 < width_ o < 4294967296)%N ∧ (0 < depth_ o)%N ∧
   N.of_nat (length (count_matrix_ o)) = depth_ o ∧
   Forall (λ row, N.of_nat (length row) = width_ o) (count_matrix_ o) ∧
   hash_functions_ o
   = (λ i, HashFunction a (N.of_nat i)) <$> seq 0 (N.to_nat (depth_ o)))
  ∨ (width_ o = 0%N ∧ depth_ o = 0%N ∧ count_matrix_ o = []).
Proof.
  intros Hreach Ho.
  destruct (reachable_stores_settled st Hreach a o Ho) as [Hus|Hem]; [left|by right].
  destruct Hus as (Hw & Hd & Hrows & Hsh & Hhs). split_and!; try done; try lia.
  rewrite Hhs. apply push_hashers_spec.
Qed.

Lemma reachable_InsertAll st this items st' :
  reachable st → InsertAll st this items = Ok st' → reachable st'.
Proof.
  revert st. induction items as [|item items IH]; intros st Hst HI.
  - by injection HI as <-.
  - unfold InsertAll in HI. cbn [for_each] in HI.
    destruct (Insert st this item) as [s| |] eqn:Hfirst; [|done..].
    apply (IH s); [by eapply reach_Insert|exact HI].
Qed.

(** X16.  No call on an object of a store built through the public
    operations has undefined behaviour: [Insert], [Count], [Clear] and
    [TopK] return, [Merge] returns or throws [invalid_argument] with
    the store unchanged, and the moves return. *)
Theorem reachable_never_undefined (st : gmap positive CountMinSketch) (this : positive) :
  reachable st → is_Some (st !! this) →
  (∀ item, ∃ st', Insert st this item = Ok st') ∧
  (∀ item, ∃ v, Count st this item = Ok v) ∧
  (∃ st', Clear st this = Ok st') ∧
  (∀ std_sort k candidates, ∃ result, TopK std_sort st this k candidates = Ok result) ∧
  (∀ other, is_Some (st !! other) →
     (∃ st', Merge st this other = Ok st')
     ∨ Merge st this other = Throw invalid_argument st) ∧
  (∀ other, is_Some (st !! other) → ∃ st', MoveAssign st this other = Ok st') ∧
  (∀ dst, ∃ st', MoveConstruct st dst this = Ok st').
Proof.
  intros Hreach [o Ho]. pose proof (reachable_stores_settled st Hreach) as Hst.
  split_and!.
  - intros item. destruct (Insert_settled st this o item Hst Ho) as (st' & HI & _).
    by exists st'.
  - intros item. by apply (Count_settled st this o).
  - destruct (Clear_settled st this o Hst Ho) as (st' & HC & _). by exists st'.
  - intros std_sort k candidates. unfold TopK.
    destruct (k =? 0)%N; [by eexists|].
    rewrite (TopK_loop_spec st this
               (λ c, match Count st this c with Ok v => v | _ => 0%N end)).
    + by eexists.
    + intros c _. by destruct (Count_settled st this o c Hst Ho) as [v ->].
  - intros other [o' Ho'].
    destruct (Merge_settled st this other o o' Hst Ho Ho') as [(st' & HM & _)|HT].
    + left. by exists st'.
    + by right.
  - intros other [o' Ho'].
    destruct (decide (this = other)) as [<-|Hne].
    + rewrite MoveAssign_self. by eexists.
    + rewrite (MoveAssign_spec st this other o') by (done || by eexists). by eexists.
  - intros dst. rewrite (MoveConstruct_spec st dst this o) by done. by eexists.
Qed.

(** ** Further edge cases *)

(** X17.  Merging a sketch into itself returns and doubles every
    counter (modulo [2^32]); dimensions and hashers stay. *)
Theorem merge_with_itself_doubles (st : gmap positive CountMinSketch) (this : positive)
    (t : CountMinSketch) :
  st !! this = Some t →
  N.of_nat (length (count_matrix_ t)) = depth_ t →
  Forall (λ row, N.of_nat (length row) = width_ t) (count_matrix_ t) →
  ∃ st' t', Merge st this this = Ok st' ∧ st' !! this = Some t' ∧
    width_ t' = width_ t ∧ depth_ t' = depth_ t ∧
    hash_functions_ t' = hash_functions_ t ∧
    length (count_matrix_ t') = length (count_matrix_ t) ∧
    ∀ i j c, count_matrix_ t !! i ≫= (.!! j) = Some c →
             count_matrix_ t' !! i ≫= (.!! j) = Some (wrap32 (c + c)).
Proof.
  intros Ht Hrows Hsh. eexists _, _.
  split; [by apply (Merge_spec st this this t t)|].
  split; [apply lookup_insert_eq|]. simpl. split_and!; try done.
  - by apply add_rows_length.
  - intros i j c Hc. by apply lookup_cell_add_rows.
Qed.

(** X18.  [UINT32_MAX] is read as "no row seen": on a sketch as the
    constructors and insertions leave it, if the counter of [x] is
    [UINT32_MAX] in every row then [Count] of [x] returns 0. *)
Theorem count_reports_zero_at_uint32_max (st : gmap positive CountMinSketch)
    (this : positive) (o : CountMinSketch) (x : KeyType) :
  st !! this = Some o → usable this o →
  (∀ i, i < N.to_nat (depth_ o) →
     cell (count_matrix_ o) i (N.to_nat (column (width_ o) i x)) = UINT32_MAX) →
  Count st this x = Ok 0%N.
Proof.
  intros Ho Hus Hfull. pose proof Hus as (Hw & Hd & _).
  rewrite (Count_usable st this o x Ho Hus). f_equal.
  rewrite (foldl_min_attained UINT32_MAX); [done| |by apply Forall_fmap, Forall_forall;
    intros i Hi%elem_of_seq; simpl; unfold hit; rewrite Hfull by lia|done].
  apply list_elem_of_fmap. exists 0. split; [|apply elem_of_seq; lia].
  unfold hit. rewrite Hfull; [done|lia].
Qed.

(** X19.  [Count] on a sketch as the constructors and insertions leave
    it depends on that object alone: it returns the same value in any
    two stores that hold the same object at that address, whatever
    happened to the other objects. *)
Theorem count_depends_only_on_own_object (st st' : gmap positive CountMinSketch)
    (this : positive) (o : CountMinSketch) (x : KeyType) :
  st !! this = Some o → st' !! this = Some o → usable this o →
  Count st this x = Count st' this x.
Proof.
  intros Ho Ho' Hus.
  by rewrite (Count_usable st this o x Ho Hus), (Count_usable st' this o x Ho' Hus).
Qed.

End Properties.

(** * Concrete runs *)

Lemma sample_store_reached :
  ∃ s0 s1 s2 : gmap positive CountMinSketch,
    Construct ∅ 1%positive 3 2 = Ok s0 ∧
    InsertAll int_hash mix s0 1%positive [5; 5; 7; 8]%N = Ok s1 ∧
    Construct s1 2%positive 3 2 = Ok s2 ∧
    InsertAll int_hash mix s2 2%positive [5; 9]%N = Ok sample_store.
Proof. eexists _, _, _. split_and!; reflexivity. Qed.

Lemma sample_usable : usable 1%positive sample ∧ usable 2%positive sample2.
Proof.
  unfold usable, sample, sample2. simpl.
  split_and!; try done; repeat constructor.
Qed.

Lemma sample_invariant :
  structural_invariant int_hash mix sample_store 1%positive ∧
  structural_invariant int_hash mix sample_store 2%positive.
Proof.
  destruct sample_usable as [H1 H2].
  split; eapply usable_structural_invariant; try done.
Qed.

Lemma a_sort_contract {K} (l : list (K * N)) :
  sorted_by by_count_desc l (a_sort by_count_desc l).
Proof.
  split; [apply merge_sort_Permutation|].
  apply StronglySorted_merge_sort.
  - intros a b c. unfold by_count_desc. rewrite !N.ltb_ge. lia.
  - intros a b. unfold by_count_desc. rewrite !N.ltb_ge. lia.
Qed.

(** ** C1: the counters wrap around *)

Lemma filter_replicate_all {A} (P : A → Prop) `{∀ x, Decision (P x)} n x :
  P x → filter P (replicate n x) = replicate n x.
Proof.
  intros Hx. induction n as [|n IH]; [done|]. simpl.
  rewrite filter_cons, decide_True by done. by rewrite IH.
Qed.

(** One counter, one key inserted [n] times: [Count] returns [n] modulo
    [2^32] (and 0 for [UINT32_MAX]). *)
Lemma Count_single_counter (n : N) :
  ∃ st0 st1 : gmap positive CountMinSketch,
    Construct ∅ 1%positive 1 1 = Ok st0 ∧
    InsertAll int_hash mix st0 1%positive (replicate (N.to_nat n) 7%N) = Ok st1 ∧
    Count int_hash mix st1 1%positive 7%N = Ok (finish (N.min UINT32_MAX (wrap32 n))) ∧
    occurrences 7%N (replicate (N.to_nat n) 7%N) = n.
Proof.
  destruct (Count_after_inserts int_hash mix ∅ 1%positive 1 1 (replicate (N.to_nat n) 7%N))
    as (st0 & st1 & HC & HI & HCount); [lia|lia|].
  exists st0, st1. split; [done|]. split; [done|]. split.
  - rewrite HCount. change (seq 0 (N.to_nat 1)) with [0]. cbn [fmap list_fmap foldl].
    do 4 f_equal. unfold hits.
    rewrite filter_replicate_all by done.
    rewrite length_replicate. apply N2Nat.id.
  - unfold occurrences. rewrite filter_replicate_all by done.
    rewrite length_replicate. apply N2Nat.id.
Qed.

(** At [UINT32_MAX] insertions the counter holds the value [Count]
    uses for "no row seen", and [Count] returns 0. *)
Lemma count_at_uint32_max :
  ∃ st0 st1 : gmap positive CountMinSketch,
    Construct ∅ 1%positive 1 1 = Ok st0 ∧
    InsertAll int_hash mix st0 1%positive (replicate (N.to_nat UINT32_MAX) 7%N) = Ok st1 ∧
    Count int_hash mix st1 1%positive 7%N = Ok 0%N.
Proof.
  destruct (Count_single_counter UINT32_MAX) as (st0 & st1 & HC & HI & HCount & _).
  by exists st0, st1.
Qed.

(** C1, counterexample.  After [2^32] insertions of one key into a
    sketch with a single counter, [Count] of that key returns 0, below
    the [2^32] times the key was inserted. *)
Lemma count_wraps_around :
  ∃ st0 st1 : gmap positive CountMinSketch,
    Construct ∅ 1%positive 1 1 = Ok st0 ∧
    InsertAll int_hash mix st0 1%positive (replicate (N.to_nat 4294967296) 7%N) = Ok st1 ∧
    Count int_hash mix st1 1%positive 7%N = Ok 0%N ∧
    ¬ (occurrences 7%N (replicate (N.to_nat 4294967296) 7%N) ≤ 0)%N.
Proof.
  destruct (Count_single_counter 4294967296) as (st0 & st1 & HC & HI & HCount & Hocc).
  exists st0, st1. split; [done|]. split; [done|]. split; [exact HCount|].
  rewrite Hocc. lia.
Qed.

(** The bound of C1 on the insertions 5, 5, 7, 8 and the key 5. *)
Lemma no_under_estimation_witness :
  ∃ (st0 st1 : gmap positive CountMinSketch) (v : N),
    Construct ∅ 1%positive 3 2 = Ok st0 ∧
    InsertAll int_hash mix st0 1%positive [5; 5; 7; 8]%N = Ok st1 ∧
    Count int_hash mix st1 1%positive 5%N = Ok v ∧
    (occurrences 5%N [5; 5; 7; 8]%N ≤ v)%N.
Proof.
  apply (no_under_estimation int_hash mix ∅ 1%positive 3 2 [5; 5; 7; 8]%N 5%N);
    [lia | lia | vm_compute; reflexivity].
Defined.

(** ** C2: merging a sketch into itself *)

(** C2, counterexample.  [sketch.Merge(sketch)] has equal dimensions,
    so it returns; it doubles every counter, so the operand passed as
    [other] is not left as it was. *)
Lemma merge_into_itself :
  ∃ (st' : gmap positive CountMinSketch) (o' : CountMinSketch),
    Merge sample_store 1%positive 1%positive = Ok st' ∧
    st' !! 1%positive = Some o' ∧
    count_matrix_ o' = [[6; 0; 2]; [2; 6; 0]]%N ∧
    st' !! 1%positive ≠ sample_store !! 1%positive.
Proof.
  eexists _, _. split; [reflexivity|]. split; [reflexivity|]. split; [reflexivity|].
  vm_compute. discriminate.
Qed.

(** C2 on two different sketches of equal dimensions. *)
Lemma merge_guard_witness :
  (Merge sample_store 1%positive 2%positive = Throw invalid_argument sample_store
   ↔ width_ sample ≠ width_ sample2 ∨ depth_ sample ≠ depth_ sample2) ∧
  ∃ st' : gmap positive CountMinSketch,
    Merge sample_store 1%positive 2%positive = Ok st' ∧
    st' !! 2%positive = Some sample2.
Proof.
  destruct (merge_guard sample_store 1%positive 2%positive sample sample2) as [Hiff HOk];
    [reflexivity | reflexivity | reflexivity | repeat constructor
    | reflexivity | repeat constructor |].
  split; [exact Hiff|].
  destruct (HOk eq_refl eq_refl) as (st' & t' & HM & _ & _ & _ & _ & _ & _ & _ & Hother & _).
  exists st'. split; [exact HM|]. apply Hother. discriminate.
Defined.

(** ** C3: a row of the wrong length *)

(** C3, counterexample.  With a first row of length 1 in a sketch of
    width 2, [Count] returns the first counter of that row, 5; skipping
    the malformed row gives 1, the counter of the well-formed row. *)
Lemma count_returns_malformed_row :
  Count int_hash mix torn_store 1%positive 5%N = Ok 5%N ∧
  Count_skipping int_hash mix torn_store 1%positive 5%N = Ok 1%N.
Proof. split; reflexivity. Qed.

(** With [width_] 0 and an empty row, the row passes the length test
    and the hasher takes a remainder by zero; a second, malformed row
    behind it is never reached. *)
Lemma count_divides_by_zero_at_width_zero :
  Count int_hash mix hollow_store 1%positive 5%N = Undefined DivideByZero ∧
  Count int_hash mix
    (<[1%positive := MkSketch 0 2 [MkHasher 0 1; MkHasher 1 1] [[]; [7%N]]]> ∅)
    1%positive 5%N = Undefined DivideByZero.
Proof. split; reflexivity. Qed.

(** C3 on the state with a short first row, and on the state of width 0. *)
Lemma count_defensive_witness :
  (Count int_hash mix torn_store 1%positive 5%N ≠ Undefined OutOfRange ∧
   Count int_hash mix torn_store 1%positive 5%N = Ok 5%N) ∧
  Count int_hash mix hollow_store 1%positive 5%N = Undefined DivideByZero.
Proof.
  split.
  - destruct (count_defensive int_hash mix torn_store 1%positive torn 5%N)
      as (Hrange & _ & _ & _ & Hstop & _); [reflexivity|].
    split; [exact Hrange|].
    apply (Hstop eq_refl eq_refl 0 [5%N]); [reflexivity | discriminate | lia].
  - destruct (count_defensive int_hash mix hollow_store 1%positive hollow 5%N)
      as (_ & _ & _ & _ & _ & Hfault & _); [reflexivity|].
    apply (Hfault eq_refl eq_refl 0 [] (MkHasher 0 1));
      [reflexivity | reflexivity | reflexivity | reflexivity | lia].
Defined.

(** ** C4 and C8: what a move leaves behind *)

(** C4, counterexample.  After a move construction from a sketch of
    depth 2, the source has depth 0 but still holds its two hashers. *)
Lemma moved_from_keeps_hashers :
  ∃ (st' : gmap positive CountMinSketch) (s : CountMinSketch),
    MoveConstruct sample_store 3%positive 1%positive = Ok st' ∧
    st' !! 1%positive = Some s ∧
    depth_ s = 0%N ∧ hash_functions_ s = [MkHasher 0 1; MkHasher 1 1] ∧
    hash_functions_ s ≠ [].
Proof. eexists _, _. split_and!; try reflexivity. discriminate. Qed.

(** C4 on a move of the sample sketch to address 3. *)
Lemma move_transfers_witness :
  ∃ (st' : gmap positive CountMinSketch) (t s : CountMinSketch),
    MoveConstruct sample_store 3%positive 1%positive = Ok st' ∧
    st' !! 3%positive = Some t ∧ st' !! 1%positive = Some s ∧
    hash_functions_ t = (λ i, HashFunction 3%positive (N.of_nat i)) <$> seq 0 (N.to_nat (depth_ t)) ∧
    hash_functions_ s = hash_functions_ sample ∧
    ∀ item, Count int_hash mix st' 1%positive item = Ok 0%N.
Proof.
  destruct (move_transfers int_hash mix sample_store 1%positive 3%positive sample)
    as (st' & t & s & HM & _ & Ht & Hs & _ & _ & _ & _ & _ & Hhs & _ & _ & _ & _ & Hold
        & _ & HCount & _);
    [reflexivity | discriminate |].
  exists st', t, s. split_and!; done.
Defined.

(** C8, counterexample.  The sketch at address 1 satisfies the
    invariant; after it is moved from, it does not: it has two hashers
    for a depth of 0. *)
Lemma moved_from_breaks_invariant :
  structural_invariant int_hash mix sample_store 1%positive ∧
  ∃ st' : gmap positive CountMinSketch,
    MoveConstruct sample_store 3%positive 1%positive = Ok st' ∧
    ¬ structural_invariant int_hash mix st' 1%positive.
Proof.
  split; [apply sample_invariant|].
  eexists. split; [reflexivity|].
  intros (o & Ho & _ & _ & Hhs & _).
  vm_compute in Ho. injection Ho as <-. vm_compute in Hhs. discriminate.
Qed.

(** C8 on an insertion into the sample sketch and on a move of it. *)
Lemma structural_invariant_preserved_witness :
  (∃ st' : gmap positive CountMinSketch,
     Insert int_hash mix sample_store 1%positive 5%N = Ok st' ∧
     structural_invariant int_hash mix st' 1%positive) ∧
  (∃ st' : gmap positive CountMinSketch,
     MoveConstruct sample_store 3%positive 1%positive = Ok st' ∧
     structural_invariant int_hash mix st' 3%positive).
Proof.
  destruct (structural_invariant_preserved int_hash mix)
    as (_ & HInsert & _ & _ & _ & _ & HMove & _).
  destruct sample_invariant as [H1 _].
  split.
  - destruct (HInsert sample_store 1%positive 5%N H1) as (st' & HI & Hpres).
    exists st'. split; [exact HI|]. by apply Hpres.
  - apply HMove; [discriminate|exact H1].
Defined.

(** ** C5, C6, C7, C10 *)

(** C5 on the sample sketch. *)
Lemma clear_resets_witness :
  ∃ (st' : gmap positive CountMinSketch) (o' : CountMinSketch),
    Clear sample_store 1%positive = Ok st' ∧ st' !! 1%positive = Some o' ∧
    count_matrix_ o' = [[0; 0; 0]; [0; 0; 0]]%N ∧
    hash_functions_ o' = hash_functions_ sample ∧
    ∀ x, Count int_hash mix st' 1%positive x = Ok 0%N.
Proof.
  destruct (proj1 (clear_resets int_hash mix) sample_store 1%positive)
    as (o & st' & o' & Ho & HClear & Ho' & Hm & _ & _ & Hhs & _ & _ & HCount);
    [apply sample_invariant|].
  vm_compute in Ho. injection Ho as <-.
  exists st', o'. split_and!; done.
Defined.

(** C6 on the sample sketch, with merge sort for [std::sort]. *)
Lemma topk_contract_witness :
  ∃ result : list (N * N),
    TopK int_hash mix a_sort sample_store 1%positive 2 [7; 5; 8; 9]%N = Ok result ∧
    length result = 2 ∧
    StronglySorted (λ a b, (b.2 ≤ a.2)%N) result.
Proof.
  destruct (topk_contract int_hash mix a_sort sample_store 1%positive 2 [7; 5; 8; 9]%N)
    as (result & HT & Hlen & Hsorted & _); [apply a_sort_contract|apply sample_invariant|].
  exists result. split_and!; done.
Defined.

(** C7 on the dimensions of the specification's construction guard. *)
Lemma construction_guard_witness :
  (Construct ∅ 1%positive 0 5 = Throw invalid_argument ∅) ∧
  (Construct ∅ 1%positive 5 0 = Throw invalid_argument ∅) ∧
  (Construct ∅ 1%positive 0 0 = Throw invalid_argument ∅) ∧
  ∃ st' : gmap positive CountMinSketch,
    Construct ∅ 1%positive 10 3 = Ok st' ∧
    ∀ item, Count int_hash mix st' 1%positive item = Ok 0%N.
Proof.
  split_and!.
  - apply (proj1 (construction_guard int_hash mix ∅ 1%positive 0 5)). by left.
  - apply (proj1 (construction_guard int_hash mix ∅ 1%positive 5 0)). by right.
  - apply (proj1 (construction_guard int_hash mix ∅ 1%positive 0 0)). by left.
  - destruct (proj2 (construction_guard int_hash mix ∅ 1%positive 10 3))
      as (st' & o & HC & _ & _ & _ & _ & _ & _ & HCount); [lia|lia|].
    by exists st'.
Defined.

(** C10 on a sketch in the empty store and one next to the samples. *)
Lemma hash_determinism_witness :
  ∃ s1 s2 : gmap positive CountMinSketch,
    Construct ∅ 1%positive 3 2 = Ok s1 ∧ Construct sample_store 3%positive 3 2 = Ok s2 ∧
    ∀ items, ∃ s1' s2' : gmap positive CountMinSketch,
      InsertAll int_hash mix s1 1%positive items = Ok s1' ∧
      InsertAll int_hash mix s2 3%positive items = Ok s2' ∧
      ∀ x, ∃ v, Count int_hash mix s1' 1%positive x = Ok v ∧
                Count int_hash mix s2' 3%positive x = Ok v.
Proof.
  destruct (hash_determinism int_hash mix ∅ sample_store 1%positive 3%positive 3 2)
    as (s1 & s2 & oa & ob & HC1 & HC2 & _ & _ & _ & Hsame); [lia|lia|].
  by exists s1, s2.
Defined.

(** ** Further properties on the sample sketches *)

Lemma sample_counters_below : counters_below (UINT32_MAX - 1) (count_matrix_ sample).
Proof. repeat constructor. Qed.

Lemma sample_store_reachable : reachable int_hash mix sample_store.
Proof.
  apply (reachable_InsertAll int_hash mix
           (<[2%positive := MkSketch 3 2 [MkHasher 0 2; MkHasher 1 2]
                              [[0; 0; 0]; [0; 0; 0]]%N]> (<[1%positive := sample]> ∅))
           2%positive [5; 9]%N); [|reflexivity].
  apply (reach_Construct int_hash mix (<[1%positive := sample]> ∅) 2%positive 3 2);
    [|reflexivity|reflexivity|reflexivity|reflexivity].
  apply (reachable_InsertAll int_hash mix
           (<[1%positive := MkSketch 3 2 [MkHasher 0 1; MkHasher 1 1]
                              [[0; 0; 0]; [0; 0; 0]]%N]> ∅)
           1%positive [5; 5; 7; 8]%N); [|reflexivity].
  apply (reach_Construct int_hash mix ∅ 1%positive 3 2);
    [apply reach_nothing|reflexivity|reflexivity|reflexivity|reflexivity].
Qed.

(** X1 on the sample sketch: one more 5 raises the count of 5 by one. *)
Lemma insert_raises_count_witness :
  ∃ (st' : gmap positive CountMinSketch) (v v' : N),
    Insert int_hash mix sample_store 1%positive 5%N = Ok st' ∧
    Count int_hash mix sample_store 1%positive 5%N = Ok v ∧
    Count int_hash mix st' 1%positive 5%N = Ok v' ∧ v' = (v + 1)%N.
Proof.
  destruct (insert_raises_count int_hash mix sample_store 1%positive sample 5%N 5%N)
    as (st' & v & v' & HI & Hv & Hv' & _ & Heq);
    [reflexivity|apply sample_usable|apply sample_counters_below|].
  exists st', v, v'. split_and!; try done. by apply Heq.
Defined.

(** X2 on the sample sketch. *)
Lemma insert_touches_one_counter_per_row_witness :
  ∃ (st' : gmap positive CountMinSketch) (o' : CountMinSketch),
    Insert int_hash mix sample_store 1%positive 7%N = Ok st' ∧
    st' !! 1%positive = Some o' ∧ hash_functions_ o' = hash_functions_ sample ∧
    st' !! 2%positive = sample_store !! 2%positive.
Proof.
  destruct (insert_touches_one_counter_per_row int_hash mix sample_store 1%positive sample 7%N)
    as (st' & o' & HI & Ho' & _ & _ & Hhs & _ & _ & Hframe);
    [reflexivity|apply sample_usable|].
  exists st', o'. split_and!; try done. by apply Hframe.
Defined.

(** X3: among 5, 5, 7, 8 the key 7 is alone in its column of row 0. *)
Lemma count_exact_without_collision_witness :
  ∃ st0 st1 : gmap positive CountMinSketch,
    Construct ∅ 1%positive 3 2 = Ok st0 ∧
    InsertAll int_hash mix st0 1%positive [5; 5; 7; 8]%N = Ok st1 ∧
    Count int_hash mix st1 1%positive 7%N = Ok (occurrences 7%N [5; 5; 7; 8]%N).
Proof.
  apply (count_exact_without_collision int_hash mix ∅ 1%positive 3 2
           [5; 5; 7; 8]%N 7%N 0); [lia|lia|reflexivity|simpl; lia|].
  intros y Hy Hne.
  repeat (apply elem_of_cons in Hy as [->|Hy]); try done; try (by apply elem_of_nil in Hy).
Defined.

(** X4 on the same insertions. *)
Lemma count_at_most_insertions_witness :
  ∃ (st0 st1 : gmap positive CountMinSketch) (v : N),
    Construct ∅ 1%positive 3 2 = Ok st0 ∧
    InsertAll int_hash mix st0 1%positive [5; 5; 7; 8]%N = Ok st1 ∧
    Count int_hash mix st1 1%positive 5%N = Ok v ∧ (v ≤ 4)%N.
Proof.
  apply (count_at_most_insertions int_hash mix ∅ 1%positive 3 2 [5; 5; 7; 8]%N 5%N); lia.
Defined.

(** X5 on two orders of the same two keys. *)
Lemma insertion_order_irrelevant_witness :
  ∃ st0 st1 : gmap positive CountMinSketch,
    Construct ∅ 1%positive 3 2 = Ok st0 ∧
    InsertAll int_hash mix st0 1%positive [5; 7]%N = Ok st1 ∧
    InsertAll int_hash mix st0 1%positive [7; 5]%N = Ok st1.
Proof.
  apply (insertion_order_irrelevant int_hash mix ∅ 1%positive 3 2 [5; 7]%N [7; 5]%N);
    [lia|lia|apply perm_swap].
Defined.

(** X6 and X7 on the streams of the two sample sketches. *)
Lemma merge_is_concatenation_witness :
  ∃ s1 s2 s3 s4 s5 r : gmap positive CountMinSketch,
    Construct ∅ 1%positive 3 2 = Ok s1 ∧
    InsertAll int_hash mix s1 1%positive [5; 5; 7; 8]%N = Ok s2 ∧
    Construct s2 2%positive 3 2 = Ok s3 ∧
    InsertAll int_hash mix s3 2%positive [5; 9]%N = Ok s4 ∧
    Merge s4 1%positive 2%positive = Ok s5 ∧
    InsertAll int_hash mix s1 1%positive ([5; 5; 7; 8] ++ [5; 9])%N = Ok r ∧
    s5 !! 1%positive = r !! 1%positive ∧
    ∀ x, Count int_hash mix s5 1%positive x = Count int_hash mix r 1%positive x.
Proof.
  apply (merge_is_concatenation int_hash mix ∅ 1%positive 2%positive 3 2
           [5; 5; 7; 8]%N [5; 9]%N); [discriminate|lia|lia].
Defined.

Lemma merge_lower_bound_witness :
  ∃ (s1 s2 s3 s4 s5 : gmap positive CountMinSketch) (v : N),
    Construct ∅ 1%positive 3 2 = Ok s1 ∧
    InsertAll int_hash mix s1 1%positive [5; 5; 7; 8]%N = Ok s2 ∧
    Construct s2 2%positive 3 2 = Ok s3 ∧
    InsertAll int_hash mix s3 2%positive [5; 9]%N = Ok s4 ∧
    Merge s4 1%positive 2%positive = Ok s5 ∧
    Count int_hash mix s5 1%positive 5%N = Ok v ∧
    (occurrences 5%N [5; 5; 7; 8]%N + occurrences 5%N [5; 9]%N ≤ v)%N.
Proof.
  apply (merge_lower_bound int_hash mix ∅ 1%positive 2%positive 3 2
           [5; 5; 7; 8]%N [5; 9]%N 5%N); [discriminate|lia|lia|reflexivity].
Defined.

(** X8 on the two sample sketches. *)
Lemma merge_commutes_witness :
  ∃ (s1 s2 : gmap positive CountMinSketch) (oa' ob' : CountMinSketch),
    Merge sample_store 1%positive 2%positive = Ok s1 ∧
    Merge sample_store 2%positive 1%positive = Ok s2 ∧
    s1 !! 1%positive = Some oa' ∧ s2 !! 2%positive = Some ob' ∧
    count_matrix_ oa' = count_matrix_ ob'.
Proof.
  apply (merge_commutes sample_store 1%positive 2%positive sample sample2);
    try reflexivity; repeat constructor.
Defined.

(** X9: merging a new sketch into the sample sketch. *)
Lemma merge_zero_is_identity_witness :
  Merge (<[3%positive := MkSketch 3 2 [MkHasher 0 3; MkHasher 1 3]
                           [[0; 0; 0]; [0; 0; 0]]%N]> sample_store)
        1%positive 3%positive
  = Ok (<[3%positive := MkSketch 3 2 [MkHasher 0 3; MkHasher 1 3]
                          [[0; 0; 0]; [0; 0; 0]]%N]> sample_store).
Proof.
  apply (merge_zero_is_identity _ 1%positive 3%positive sample
           (MkSketch 3 2 [MkHasher 0 3; MkHasher 1 3] [[0; 0; 0]; [0; 0; 0]]%N));
    try reflexivity; repeat constructor.
Defined.

(** X10 on the sample sketch. *)
Lemma clear_is_reconstruction_witness :
  Clear sample_store 1%positive = Construct sample_store 1%positive 3 2.
Proof.
  apply (clear_is_reconstruction sample_store 1%positive sample);
    [reflexivity|apply sample_usable].
Defined.

(** X11, X12 and X13 on a move of the sample sketch to address 3. *)
Lemma move_keeps_estimates_witness :
  ∃ (st' : gmap positive CountMinSketch) (t : CountMinSketch),
    MoveConstruct sample_store 3%positive 1%positive = Ok st' ∧
    st' !! 3%positive = Some t ∧ count_matrix_ t = count_matrix_ sample ∧
    ∀ x, Count int_hash mix st' 3%positive x = Count int_hash mix sample_store 1%positive x.
Proof.
  destruct (move_keeps_estimates int_hash mix sample_store 1%positive 3%positive sample)
    as (st' & t & HM & _ & Ht & Hm & _ & HCount);
    [reflexivity|apply sample_usable|discriminate|].
  by exists st', t.
Defined.

Lemma move_round_trip_witness :
  ∃ s1 s2 : gmap positive CountMinSketch,
    MoveConstruct sample_store 3%positive 1%positive = Ok s1 ∧
    MoveAssign s1 1%positive 3%positive = Ok s2 ∧
    s2 !! 1%positive = Some sample.
Proof.
  destruct (move_round_trip sample_store 1%positive 3%positive sample)
    as (s1 & s2 & t & HM & HA & Hsrc & _);
    [reflexivity|apply sample_usable|discriminate|].
  by exists s1, s2.
Defined.

Lemma moved_from_hashers_divide_by_zero_witness :
  ∃ (st' : gmap positive CountMinSketch) (s : CountMinSketch),
    MoveConstruct sample_store 3%positive 1%positive = Ok st' ∧
    st' !! 1%positive = Some s ∧ length (hash_functions_ s) = 2 ∧
    ∀ h item, h ∈ hash_functions_ s →
      call int_hash mix st' h item = Undefined DivideByZero.
Proof.
  apply (moved_from_hashers_divide_by_zero int_hash mix sample_store
           1%positive 3%positive sample);
    [reflexivity|apply sample_usable|discriminate].
Defined.

(** X14 on the sample sketch, with merge sort for [std::sort]. *)
Lemma topk_keeps_the_largest_witness :
  ∃ result dropped : list (N * N),
    TopK int_hash mix a_sort sample_store 1%positive 2 [7; 5; 8; 9]%N = Ok result ∧
    length dropped = 2 ∧
    ∀ a b, a ∈ result → b ∈ dropped → (b.2 ≤ a.2)%N.
Proof.
  destruct (topk_keeps_the_largest int_hash mix a_sort sample_store 1%positive 2
              [7; 5; 8; 9]%N)
    as (result & dropped & HT & _ & Hlen & _ & Htop);
    [apply a_sort_contract|apply sample_invariant|].
  by exists result, dropped.
Defined.

(** X15 and X16 on the store of the two sample sketches. *)
Lemma reachable_settled_witness :
  ((0 < width_ sample < 4294967296)%N ∧ (0 < depth_ sample)%N ∧
   N.of_nat (length (count_matrix_ sample)) = depth_ sample ∧
   Forall (λ row, N.of_nat (length row) = width_ sample) (count_matrix_ sample) ∧
   hash_functions_ sample
   = (λ i, HashFunction 1%positive (N.of_nat i)) <$> seq 0 (N.to_nat (depth_ sample)))
  ∨ (width_ sample = 0%N ∧ depth_ sample = 0%N ∧ count_matrix_ sample = []).
Proof.
  apply (reachable_settled int_hash mix sample_store 1%positive sample);
    [apply sample_store_reachable|reflexivity].
Defined.

Lemma reachable_never_undefined_witness :
  (∀ item, ∃ st', Insert int_hash mix sample_store 1%positive item = Ok st') ∧
  (∀ item, ∃ v, Count int_hash mix sample_store 1%positive item = Ok v) ∧
  ∃ st', Clear sample_store 1%positive = Ok st'.
Proof.
  destruct (reachable_never_undefined int_hash mix sample_store 1%positive)
    as (HI & HC & HClear & _); [apply sample_store_reachable|by eexists|].
  done.
Defined.

(** X17 on the sample sketch. *)
Lemma merge_with_itself_doubles_witness :
  ∃ (st' : gmap positive CountMinSketch) (t' : CountMinSketch),
    Merge sample_store 1%positive 1%positive = Ok st' ∧ st' !! 1%positive = Some t' ∧
    ∀ i j c, count_matrix_ sample !! i ≫= (.!! j) = Some c →
             count_matrix_ t' !! i ≫= (.!! j) = Some (wrap32 (c + c)).
Proof.
  destruct (merge_with_itself_doubles sample_store 1%positive sample)
    as (st' & t' & HM & Ht' & _ & _ & _ & _ & Hdouble);
    [reflexivity|reflexivity|repeat constructor|].
  by exists st', t'.
Defined.

(** X18 on a single counter at [UINT32_MAX]. *)
Lemma count_reports_zero_at_uint32_max_witness :
  Count int_hash mix full_store 1%positive 7%N = Ok 0%N.
Proof.
  apply (count_reports_zero_at_uint32_max int_hash mix full_store 1%positive full 7%N).
  - reflexivity.
  - unfold usable, full. simpl. split_and!; try done. repeat constructor.
  - intros [|i] Hi; [reflexivity|simpl in Hi; lia].
Defined.

(** X19: the sample sketch alone, and next to the second one. *)
Lemma count_depends_only_on_own_object_witness :
  Count int_hash mix sample_store 1%positive 5%N
  = Count int_hash mix (<[1%positive := sample]> ∅) 1%positive 5%N.
Proof.
  apply (count_depends_only_on_own_object int_hash mix _ _ 1%positive sample 5%N);
    [reflexivity|reflexivity|apply sample_usable].
Defined.
